(** * visual-generations: the Stable Diffusion 1.5 inpainting front end

    A shallow embedding of
      - [gen_ai/constants/inpainting_configuration_types.py]
      - [gen_ai/image_gen/stable_diffusion_model_config.py]
      - [gen_ai/image_gen/stable_diffusion_15/stable_diffusion.py]
    together with the properties the design document states about them.
    The region core of the design document (bounding box, compositing),
    whose code is in [inpainting_utils.py] and not in these files, is
    modelled from the document in module [Core].

    Python objects are modelled by value; exceptions are the left summand
    of a result; the [StableDiffusion] instance, the outside world (file
    system, random generator, device) and a log of the calls made to
    collaborators are threaded through a small state-and-exception monad. *)

From Stdlib Require Import ZArith List String Bool Lia QArith.
Import ListNotations.

Set Implicit Arguments.
Unset Strict Implicit.
Set Warnings "-register-all".

Local Open Scope string_scope.
Local Open Scope Z_scope.

(* ================================================================== *)
(** * Part I. Definitions                                              *)
(* ================================================================== *)

(** ** The policy enumerations ([inpainting_configuration_types.py])

    Each class is an [IntEnum]: [value] is the member's integer,
    [of_value] is the call [Cls(v)], which raises [ValueError] ([None]
    here) when no member carries [v], and [members] is the iteration
    order of the class. *)

Module InpaintingPreProcessTypes.

Inductive t : Set := NONE | RESIZE | CROP_AND_RESIZE.

Definition value (x : t) : Z :=
  match x with
  | NONE => 1
  | RESIZE => 2
  | CROP_AND_RESIZE => 3
  end.

Definition members : list t := [NONE; RESIZE; CROP_AND_RESIZE].

Definition of_value (v : Z) : option t :=
  find (fun m => value m =? v) members.

End InpaintingPreProcessTypes.

Module InpaintingPostProcessTypes.

Inductive t : Set := NONE | DIRECT_REPLACE | BLEND.

Definition value (x : t) : Z :=
  match x with
  | NONE => 1
  | DIRECT_REPLACE => 2
  | BLEND => 3
  end.

Definition members : list t := [NONE; DIRECT_REPLACE; BLEND].

Definition of_value (v : Z) : option t :=
  find (fun m => value m =? v) members.

End InpaintingPostProcessTypes.

Module InpaintingBlendingTypes.

Inductive t : Set :=
  | NONE
  | POISSON_BLENDING
  | GAUSSIAN_BLENDING
  | LINEAR_BLENDING
  | SMOOTH_BLENDING
  | SMOOTHER_BLENDING.

Definition value (x : t) : Z :=
  match x with
  | NONE => 1
  | POISSON_BLENDING => 2
  | GAUSSIAN_BLENDING => 3
  | LINEAR_BLENDING => 4
  | SMOOTH_BLENDING => 5
  | SMOOTHER_BLENDING => 6
  end.

Definition members : list t :=
  [NONE; POISSON_BLENDING; GAUSSIAN_BLENDING; LINEAR_BLENDING;
   SMOOTH_BLENDING; SMOOTHER_BLENDING].

Definition of_value (v : Z) : option t :=
  find (fun m => value m =? v) members.

End InpaintingBlendingTypes.

Module Pre := InpaintingPreProcessTypes.
Module Post := InpaintingPostProcessTypes.
Module Blend := InpaintingBlendingTypes.

(** ** Python values and exceptions *)

(** [pathlib.Path], by its [parts]. *)
Definition Path : Set := list string.

(** [str(path)] of a POSIX path: the parts joined by a slash, the root
    part ["/"] not followed by a second slash, and ["."] for the path
    without parts. *)
Definition str_of_path (p : Path) : string :=
  match p with
  | [] => "."
  | "/" :: rest => "/" ++ String.concat "/" rest
  | _ => String.concat "/" p
  end.

Definition path_eqb (p q : Path) : bool :=
  if list_eq_dec string_dec p q then true else false.

Inductive PyExn : Set :=
  | ValueError (msg : string)
  | AttributeError (msg : string)
  | TypeError (msg : string)
  | KeyError (msg : string)
  | ExternalError (msg : string).

(** A [PIL.Image.Image]: its [size] is [(width, height)]. *)
Record Image : Set := mkImage { size : Z * Z; data : list Z }.

(** The dynamically typed values that reach the class through its
    arguments and through what its collaborators return. *)
Inductive PyVal : Set :=
  | VNone
  | VInt (n : Z)
  | VStr (s : string)
  | VPath (p : Path)
  | VImage (i : Image)
  | VList (l : list PyVal)
  | VTuple (l : list PyVal).

Definition is_None (v : PyVal) : bool :=
  match v with VNone => true | _ => false end.

(** [bool(v)], as tested by [if output_dir:]. *)
Definition truthy (v : PyVal) : bool :=
  match v with
  | VNone => false
  | VInt n => negb (n =? 0)
  | VStr s => negb (String.length s =? 0)%nat
  | VPath _ => true
  | VImage _ => true
  | VList l | VTuple l => negb (List.length l =? 0)%nat
  end.

Definition type_name (v : PyVal) : string :=
  match v with
  | VNone => "NoneType"
  | VInt _ => "int"
  | VStr _ => "str"
  | VPath _ => "PosixPath"
  | VImage _ => "Image"
  | VList _ => "list"
  | VTuple _ => "tuple"
  end.

Definition no_attribute (v : PyVal) (attr : string) : PyExn :=
  AttributeError
    ("'" ++ type_name v ++ "' object has no attribute '" ++ attr ++ "'").

Definition unpack_items (l : list PyVal) : PyExn + (PyVal * PyVal) :=
  match l with
  | [a; b] => inr (a, b)
  | [] => inl (ValueError "not enough values to unpack (expected 2, got 0)")
  | [_] => inl (ValueError "not enough values to unpack (expected 2, got 1)")
  | _ => inl (ValueError "too many values to unpack (expected 2)")
  end.

(** The tuple assignment [a, b = v]: [v] must be iterable and yield
    exactly two items. *)
Definition unpack2 (v : PyVal) : PyExn + (PyVal * PyVal) :=
  match v with
  | VTuple l | VList l => unpack_items l
  | VStr s =>
      unpack_items
        (map (fun c => VStr (String c EmptyString)) (list_ascii_of_string s))
  | _ =>
      inl (TypeError
             ("cannot unpack non-iterable " ++ type_name v ++ " object"))
  end.

(** ** Task types and pipeline classes

    [ImageGenTaskTypes] is imported from [gen_ai.constants]; the three
    members the class dispatches on are named, and [OTHER_TASK] stands for
    any further member, which is what the [else] branch of
    [generate_images] answers to. *)
Inductive ImageGenTaskTypes : Set :=
  | TEXT2IMG
  | IMG2IMG
  | INPAINTING
  | OTHER_TASK (name : string).

Inductive PipelineCls : Set :=
  | StableDiffusionPipeline
  | StableDiffusionImg2ImgPipeline
  | StableDiffusionInpaintPipeline.

(** [PIPELINE_CLS_MAP[task]]; [None] is the [KeyError]. *)
Definition PIPELINE_CLS_MAP (task : ImageGenTaskTypes) : option PipelineCls :=
  match task with
  | TEXT2IMG => Some StableDiffusionPipeline
  | IMG2IMG => Some StableDiffusionImg2ImgPipeline
  | INPAINTING => Some StableDiffusionInpaintPipeline
  | OTHER_TASK _ => None
  end.

(** The keyword arguments of the three [self.pipe(...)] calls: the
    forwarded parameters, the image (and mask) where the task has one, the
    requested height and width where the call passes them, and the
    generator of the model configuration. *)
Inductive PipeArgs (GenParams Generator : Type) : Type :=
  | Text2ImgArgs (p : GenParams) (height width : Z) (g : option Generator)
  | Img2ImgArgs (p : GenParams) (image : Image) (g : option Generator)
  | InpaintArgs (p : GenParams) (image mask_image : PyVal)
      (height width : Z) (g : option Generator).

(** ** Collaborators

    Everything the class calls but does not define: the [diffusers]
    pipeline object and its loaders, the [inpainting_utils] pair
    [preprocess_inputs]/[postprocess_outputs], the file system, and the
    constants of [gen_ai.configs].  [Ext] is the state of the outside
    world (files, random generator, device memory); a call that may touch
    it maps an [Ext] to an outcome and a new [Ext]. *)
Record Externals : Type := {
  Ext : Type;
  Pipeline : Type;
  Scheduler : Type;
  SchedulerType : Type;
  GenParams : Type;
  Generator : Type;
  CACHE_DIR : Path;
  TEXT2IMG_MODEL_ID : string;
  IMG2IMG_MODEL_ID : string;
  INPAINTING_MODEL_ID : string;
  (* the decorator's action on one positional or keyword argument *)
  pathify_strings : PyVal -> PyVal;
  check_if_hf_cache_exists : Path -> PyVal -> Ext -> bool;
  from_pretrained :
    PipelineCls -> string -> Path -> bool -> Ext -> (PyExn + Pipeline) * Ext;
  from_single_file :
    PipelineCls -> string -> Path -> bool -> Ext -> (PyExn + Pipeline) * Ext;
  pipe_to : Pipeline -> string -> Ext -> (PyExn + Pipeline) * Ext;
  (* [pipe.safety_checker = None] and [pipe.scheduler = s] *)
  set_safety_checker_None : Pipeline -> Pipeline;
  set_scheduler : Scheduler -> Pipeline -> Pipeline;
  get_scheduler : SchedulerType -> PyExn + Scheduler;
  (* [self.pipe(...).images] *)
  pipe_call :
    Pipeline -> PipeArgs GenParams Generator -> Ext ->
    (PyExn + list Image) * Ext;
  preprocess_inputs : Image -> Image -> Pre.t -> Z -> Z -> PyExn + PyVal;
  postprocess_outputs :
    Image -> Image -> Image -> Pre.t -> Post.t -> Blend.t -> PyExn + Image;
  save_images : list Image -> PyVal -> Ext -> (PyExn + unit) * Ext;
  path_mkdir : Path -> Ext -> (PyExn + unit) * Ext;
  pipe_load_textual_inversion :
    Pipeline -> PyVal -> PyVal -> option bool -> Ext ->
    (PyExn + Pipeline) * Ext;
  pipe_unload_textual_inversion :
    Pipeline -> PyVal -> Ext -> (PyExn + Pipeline) * Ext
}.

(** ** The monad: a state to thread, Python exceptions to propagate

    A computation maps the state to an outcome, an exception or a value,
    and the state at that point.  An exception ends the computation: what
    follows a raising step is not run. *)

Declare Scope py_scope.
Delimit Scope py_scope with py.

Section Monad.

Variable W : Type.

Definition Py (A : Type) : Type := W -> (PyExn + A) * W.

Definition ret {A : Type} (a : A) : Py A := fun w => (inr a, w).

Definition raise {A : Type} (e : PyExn) : Py A := fun w => (inl e, w).

Definition bind {A B : Type} (m : Py A) (k : A -> Py B) : Py B :=
  fun w =>
    match m w with
    | (inl e, w') => (inl e, w')
    | (inr a, w') => k a w'
    end.

(** A call whose outcome depends on its arguments alone. *)
Definition call {A : Type} (r : PyExn + A) : Py A := fun w => (r, w).

(** [for _ in range(n): acc = body(acc)] *)
Fixpoint for_range {A : Type} (n : nat) (body : A -> Py A) (acc : A)
  : Py A :=
  match n with
  | O => ret acc
  | S k => bind (body acc) (for_range k body)
  end.

(** [[f(x) for x in xs]] *)
Fixpoint comprehension {A B : Type} (f : A -> Py B) (xs : list A)
  : Py (list B) :=
  match xs with
  | [] => ret []
  | x :: rest =>
      bind (f x) (fun y =>
      bind (comprehension f rest) (fun ys => ret (y :: ys)))
  end.

End Monad.

Arguments ret {W A} a _.
Arguments raise {W A} e _.
Arguments bind {W A B} m k _.
Arguments call {W A} r _.
Arguments for_range {W A} n body acc _.
Arguments comprehension {W A B} f xs _.

Notation "x <- c1 ;; c2" := (bind c1 (fun x => c2))
  (at level 61, c1 at next level, right associativity) : py_scope.
Notation "c1 ;; c2" := (bind c1 (fun _ => c2))
  (at level 61, right associativity) : py_scope.

(** ** The class [StableDiffusion] *)

Section StableDiffusion.

Variable E : Externals.

(** [StableDiffusionModelConfig] ([stable_diffusion_model_config.py]). *)
Record StableDiffusionModelConfig : Type := mkModelConfig {
  hf_model_id : option string;
  model_path : option Path;
  device : string;
  task_type : ImageGenTaskTypes;
  check_nsfw : bool;
  seed : option Z;
  generator : option (Generator E)
}.

(** [StableDiffusionInputConfig], by the attributes the class reads
    itself; [params] gathers the ones it only forwards to the pipeline
    (prompt, strength, guidance scale, embeddings, callbacks, ...). *)
Record StableDiffusionInputConfig : Type := mkInputConfig {
  image : Image;
  mask_image : Image;
  width : Z;
  height : Z;
  num_batches : Z;
  preprocess_type : Pre.t;
  postprocess_type : Post.t;
  blending_type : Blend.t;
  scheduler_type : option (SchedulerType E);
  params : GenParams E
}.

Definition PipeArgsE : Type := PipeArgs (GenParams E) (Generator E).

(** One entry of the call log per call made to a collaborator, written
    when the call is made. *)
Inductive Event : Type :=
  | EvCacheLookup (model_id : PyVal)
  | EvFromPretrained (cls : PipelineCls) (descriptor : string)
      (local_files_only : bool)
  | EvFromSingleFile (cls : PipelineCls) (descriptor : string)
  | EvTo (device : string)
  | EvMkdir (p : Path)
  | EvGetScheduler
  | EvPreprocess (image mask : Image) (pre : Pre.t) (width height : Z)
  | EvGenerate (args : PipeArgsE)
  | EvPostprocess (image mask inpainted : Image)
      (pre : Pre.t) (post : Post.t) (blend : Blend.t)
  | EvSaveImages (images : list Image) (output_dir : PyVal)
  | EvLoadTextualInversion (source token : PyVal)
  | EvUnloadTextualInversion (tokens : PyVal).

(** The instance: [self.pipe] and [self.model_config]. *)
Record Self : Type := mkSelf {
  pipe : option (Pipeline E);
  model_config : option StableDiffusionModelConfig
}.

Record World : Type := mkWorld {
  self : Self;
  ext : Ext E;
  trace : list Event
}.

(** *** Computations of the class *)

Definition M (A : Type) : Type := Py World A.

Local Open Scope py_scope.

Definition get_self : M Self := fun w => (inr (self w), w).

Definition put_self (s : Self) : M unit :=
  fun w => (inr tt, mkWorld s (ext w) (trace w)).

Definition log (ev : Event) : M unit :=
  fun w => (inr tt, mkWorld (self w) (ext w) (trace w ++ [ev])).

(** A call that may read and change the outside world. *)
Definition outside {A : Type} (f : Ext E -> (PyExn + A) * Ext E) : M A :=
  fun w => let (r, x) := f (ext w) in (r, mkWorld (self w) x (trace w)).

(** A call that only reads the outside world. *)
Definition observe {A : Type} (f : Ext E -> A) : M A :=
  fun w => (inr (f (ext w)), w).

Definition set_pipe (p : option (Pipeline E)) : M unit :=
  s <- get_self ;; put_self (mkSelf p (model_config s)).

Definition set_model_config (c : option StableDiffusionModelConfig) : M unit :=
  s <- get_self ;; put_self (mkSelf (pipe s) c).

(** [self.model_config.<attr>]: the configuration object, or the
    [AttributeError] of reading an attribute of [None]. *)
Definition config_attr (attr : string) : M StableDiffusionModelConfig :=
  s <- get_self ;;
  match model_config s with
  | Some c => ret c
  | None => raise (no_attribute VNone attr)
  end.

(** [self.pipe.<attr>] and [self.pipe(...)]. *)
Definition pipe_attr (attr : string) : M (Pipeline E) :=
  s <- get_self ;;
  match pipe s with
  | Some p => ret p
  | None => raise (no_attribute VNone attr)
  end.

Definition pipe_callable : M (Pipeline E) :=
  s <- get_self ;;
  match pipe s with
  | Some p => ret p
  | None => raise (TypeError "'NoneType' object is not callable")
  end.

(** *** [_check_model_ready] *)
Definition _check_model_ready : M unit :=
  s <- get_self ;;
  match pipe s with
  | None => raise (ValueError "Model not loaded.")
  | Some _ => ret tt
  end.

(** *** [_load_pipeline]

    [load_from] is the part of the method after the two early returns:
    [descriptor] and [is_finetuned] are the locals [model_descriptor] and
    [is_finetuned] at that point. *)
Definition load_from (hf : option string) (mp : option Path)
  (descriptor : string) (is_finetuned : bool) (dev : option string)
  : M unit :=
  dev' <- match dev with
          | Some d => ret d
          | None => c <- config_attr "device" ;; ret (device c)
          end ;;
  c <- config_attr "task_type" ;;
  cls <- match PIPELINE_CLS_MAP (task_type c) with
         | Some cls => ret cls
         | None => raise (KeyError "task_type")
         end ;;
  p <- (if is_finetuned then
          log (EvFromSingleFile cls descriptor) ;;
          o <- outside (from_single_file cls descriptor (CACHE_DIR E) true) ;;
          log (EvTo dev') ;;
          outside (pipe_to o dev')
        else
          log (EvCacheLookup (VStr descriptor)) ;;
          local_only <- observe (check_if_hf_cache_exists (CACHE_DIR E)
                                   (VStr descriptor)) ;;
          log (EvFromPretrained cls descriptor local_only) ;;
          o <- outside (from_pretrained cls descriptor (CACHE_DIR E)
                          local_only) ;;
          log (EvTo dev') ;;
          outside (pipe_to o dev')) ;;
  set_pipe (Some p) ;;
  c <- config_attr "check_nsfw" ;;
  (if negb (check_nsfw c) then
     p' <- pipe_attr "safety_checker" ;;
     set_pipe (Some (set_safety_checker_None p'))
   else ret tt) ;;
  c <- config_attr "hf_model_id" ;;
  set_model_config
    (Some (mkModelConfig hf mp dev' (task_type c) (check_nsfw c)
             (seed c) (generator c))).

Definition option_string_eqb (a b : option string) : bool :=
  match a, b with
  | Some x, Some y => String.eqb x y
  | None, None => true
  | _, _ => false
  end.

Definition option_path_eqb (a b : option Path) : bool :=
  match a, b with
  | Some x, Some y => path_eqb x y
  | None, None => true
  | _, _ => false
  end.

Definition is_Some {A : Type} (o : option A) : bool :=
  match o with Some _ => true | None => false end.

Definition _load_pipeline (hf : option string) (mp : option Path)
  (dev : option string) : M unit :=
  match hf, mp with
  | None, None =>
      raise (ValueError "Either hf_model_id or model_path must be provided.")
  | Some _, Some _ =>
      raise (ValueError
               "Only one of hf_model_id or model_path should be provided.")
  | Some id, None =>
      c <- config_attr "hf_model_id" ;;
      s <- get_self ;;
      if option_string_eqb (hf_model_id c) (Some id) && is_Some (pipe s)
      then ret tt
      else load_from hf mp id false dev
  | None, Some path =>
      c <- config_attr "model_path" ;;
      s <- get_self ;;
      if option_path_eqb (model_path c) (Some path) && is_Some (pipe s)
      then ret tt
      else load_from hf mp (str_of_path path)
             (negb (existsb (String.eqb "diffusers_cache") path)) dev
  end.

(** *** [__init__] *)
Definition __init__ (config : option StableDiffusionModelConfig) : M unit :=
  put_self (mkSelf None config) ;;
  match config with
  | None => ret tt
  | Some c =>
      if is_Some (hf_model_id c) || is_Some (model_path c)
      then _load_pipeline (hf_model_id c) (model_path c) (Some (device c))
      else ret tt
  end.

(** *** [update_pipeline] *)
Definition update_pipeline (new_config : StableDiffusionModelConfig)
  : M unit :=
  _load_pipeline (hf_model_id new_config) (model_path new_config)
    (Some (device new_config)) ;;
  set_model_config (Some new_config).

(** [PIPELINE_MODEL_MAP[task]]; [None] is the [KeyError]. *)
Definition PIPELINE_MODEL_MAP (task : ImageGenTaskTypes) : option string :=
  match task with
  | TEXT2IMG => Some (TEXT2IMG_MODEL_ID E)
  | IMG2IMG => Some (IMG2IMG_MODEL_ID E)
  | INPAINTING => Some (INPAINTING_MODEL_ID E)
  | OTHER_TASK _ => None
  end.

(** *** [_load_model_hard_set] *)
Definition _load_model_hard_set : M unit :=
  c <- config_attr "hf_model_id" ;;
  match hf_model_id c, model_path c with
  | Some id, _ => _load_pipeline (Some id) None None
  | None, Some path => _load_pipeline None (Some path) None
  | None, None =>
      match PIPELINE_MODEL_MAP (task_type c) with
      | Some id => _load_pipeline (Some id) None None
      | None => raise (KeyError "task_type")
      end
  end.

(** [if output_dir: save_images(images=images, output_dir=output_dir,
    auto_index=True)] *)
Definition save_if_requested (images : list Image) (output_dir : PyVal)
  : M unit :=
  if truthy output_dir then
    log (EvSaveImages images output_dir) ;;
    outside (save_images images output_dir)
  else ret tt.

(** *** [_generate_images_text2img] *)
Definition text2img_item (config : StableDiffusionInputConfig)
  (images : list Image) : M (list Image) :=
  c <- config_attr "generator" ;;
  p <- pipe_callable ;;
  let args :=
    Text2ImgArgs (params config) (height config) (width config)
      (generator c) in
  log (EvGenerate args) ;;
  pipeline_images <- outside (pipe_call p args) ;;
  ret (images ++ pipeline_images)%list.

Definition _generate_images_text2img (config : StableDiffusionInputConfig)
  (output_dir : PyVal) : M (list Image) :=
  let output_dir := pathify_strings E output_dir in
  _load_model_hard_set ;;
  images <- for_range (Z.to_nat (num_batches config))
              (text2img_item config) [] ;;
  save_if_requested images output_dir ;;
  ret images.

(** *** [_generate_images_img2img] *)
Definition img2img_item (config : StableDiffusionInputConfig)
  (images : list Image) : M (list Image) :=
  c <- config_attr "generator" ;;
  p <- pipe_callable ;;
  let args := Img2ImgArgs (params config) (image config) (generator c) in
  log (EvGenerate args) ;;
  pipeline_images <- outside (pipe_call p args) ;;
  ret (images ++ pipeline_images)%list.

Definition _generate_images_img2img (config : StableDiffusionInputConfig)
  (output_dir : PyVal) : M (list Image) :=
  let output_dir := pathify_strings E output_dir in
  _load_model_hard_set ;;
  images <- for_range (Z.to_nat (num_batches config))
              (img2img_item config) [] ;;
  save_if_requested images output_dir ;;
  ret images.

(** *** [_generate_images_inpainting] *)

(** [postprocess_outputs(image=config.image, mask=config.mask_image,
    inpainted_image=inpainted_image, pre_process_type=...,
    post_process_type=..., blending_type=...)] *)
Definition postprocess_one (config : StableDiffusionInputConfig)
  (inpainted_image : Image) : M Image :=
  log (EvPostprocess (image config) (mask_image config) inpainted_image
         (preprocess_type config) (postprocess_type config)
         (blending_type config)) ;;
  call (postprocess_outputs E (image config) (mask_image config)
          inpainted_image (preprocess_type config) (postprocess_type config)
          (blending_type config)).

(** One turn of the loop over [range(config.num_batches)]. *)
Definition inpainting_item (config : StableDiffusionInputConfig)
  (images : list Image) : M (list Image) :=
  log (EvPreprocess (image config) (mask_image config)
         (preprocess_type config) (width config) (height config)) ;;
  r <- call (preprocess_inputs E (image config) (mask_image config)
               (preprocess_type config) (width config) (height config)) ;;
  im <- call (unpack2 r) ;;
  c <- config_attr "generator" ;;
  p <- pipe_callable ;;
  let args :=
    InpaintArgs (params config) (fst im) (snd im) (height config)
      (width config) (generator c) in
  log (EvGenerate args) ;;
  pipeline_images <- outside (pipe_call p args) ;;
  pipeline_images <- comprehension (postprocess_one config)
                       pipeline_images ;;
  ret (images ++ pipeline_images)%list.

Definition _generate_images_inpainting (config : StableDiffusionInputConfig)
  (output_dir : PyVal) : M (list Image) :=
  let output_dir := pathify_strings E output_dir in
  _load_model_hard_set ;;
  images <- for_range (Z.to_nat (num_batches config))
              (inpainting_item config) [] ;;
  save_if_requested images output_dir ;;
  ret images.

(** *** The calls of the inpainting task, in the order they are made

    What the call log gains from one turn of the loop, given the pair the
    preparation returned, the generator in use and the images the
    generation call returned; and what it gains from the final save. *)

Definition inpaint_args (config : StableDiffusionInputConfig)
  (region : PyVal * PyVal) (g : option (Generator E)) : PipeArgsE :=
  InpaintArgs (params config) (fst region) (snd region) (height config)
    (width config) g.

Definition postprocess_call (config : StableDiffusionInputConfig)
  (inpainted : Image) : Event :=
  EvPostprocess (image config) (mask_image config) inpainted
    (preprocess_type config) (postprocess_type config)
    (blending_type config).

Definition item_calls (config : StableDiffusionInputConfig)
  (region : PyVal * PyVal) (g : option (Generator E))
  (generated : list Image) : list Event :=
  EvPreprocess (image config) (mask_image config) (preprocess_type config)
    (width config) (height config)
  :: EvGenerate (inpaint_args config region g)
  :: map (postprocess_call config) generated.

Definition save_calls (images : list Image) (output_dir : PyVal)
  : list Event :=
  if truthy output_dir then [EvSaveImages images output_dir] else [].

(** [finals] are the outcomes of [postprocess_outputs] on [generated],
    one by one and in order, each with the original image, the original
    mask and the three configured policies. *)
Definition composited (config : StableDiffusionInputConfig)
  (generated finals : list Image) : Prop :=
  Forall2
    (fun o f =>
       postprocess_outputs E (image config) (mask_image config) o
         (preprocess_type config) (postprocess_type config)
         (blending_type config) = inr f)
    generated finals.

(** One completed turn of the loop: the prepared pair, the generator
    passed, the images generated and the images composited from them. *)
Record ItemRun : Type := mkItemRun {
  prepared : PyVal * PyVal;
  used_generator : option (Generator E);
  generated : list Image;
  finals : list Image
}.

(** The turn [it] is a turn of the loop run on the instance [s]:
    [prepared] is the unpacked result of [preprocess_inputs] on the
    configured image, mask, policy and target size; [generated] is what
    the loaded pipeline returned on that pair; [finals] are composited
    from [generated]. *)
Definition item_of_loop (config : StableDiffusionInputConfig) (s : Self)
  (it : ItemRun) : Prop :=
  (exists v,
      preprocess_inputs E (image config) (mask_image config)
        (preprocess_type config) (width config) (height config) = inr v /\
      unpack2 v = inr (prepared it)) /\
  (exists c, model_config s = Some c /\ used_generator it = generator c) /\
  (exists p x x',
      pipe s = Some p /\
      pipe_call p (inpaint_args config (prepared it) (used_generator it)) x
      = (inr (generated it), x')) /\
  composited config (generated it) (finals it).

(** The calls of a run of completed turns, turn after turn. *)
Definition loop_calls (config : StableDiffusionInputConfig)
  (items : list ItemRun) : list Event :=
  List.concat
    (map (fun it => item_calls config (prepared it) (used_generator it)
                      (generated it))
       items).

(** The generation calls and the compositing calls of a call log. *)
Definition is_generate (ev : Event) : bool :=
  match ev with EvGenerate _ => true | _ => false end.

Definition is_postprocess (ev : Event) : bool :=
  match ev with EvPostprocess _ _ _ _ _ _ => true | _ => false end.

(** *** [generate_images] *)

(** [output_dir.mkdir(parents=True, exist_ok=True)] *)
Definition mkdir_output_dir (output_dir : PyVal) : M unit :=
  match output_dir with
  | VPath p => log (EvMkdir p) ;; outside (path_mkdir p)
  | v => raise (no_attribute v "mkdir")
  end.

Definition generate_images (config : StableDiffusionInputConfig)
  (output_dir : PyVal) : M (list Image) :=
  let output_dir := pathify_strings E output_dir in
  _check_model_ready ;;
  mkdir_output_dir output_dir ;;
  match scheduler_type config with
  | Some t =>
      log EvGetScheduler ;;
      sch <- call (get_scheduler t) ;;
      p <- pipe_attr "scheduler" ;;
      set_pipe (Some (set_scheduler sch p))
  | None => ret tt
  end ;;
  c <- config_attr "task_type" ;;
  match task_type c with
  | TEXT2IMG => _generate_images_text2img config output_dir
  | IMG2IMG => _generate_images_img2img config output_dir
  | INPAINTING => _generate_images_inpainting config output_dir
  | OTHER_TASK _ => raise (ValueError "Unsupported task type")
  end.

(** *** Textual inversion *)

Definition pipe_method (attr : string)
  (f : Pipeline E -> Ext E -> (PyExn + Pipeline E) * Ext E) : M unit :=
  p <- pipe_attr attr ;;
  p' <- outside (f p) ;;
  set_pipe (Some p').

Definition load_textual_inversion (hf_model_id file_path token : PyVal)
  : M unit :=
  let hf_model_id := pathify_strings E hf_model_id in
  let file_path := pathify_strings E file_path in
  let token := pathify_strings E token in
  _check_model_ready ;;
  if negb (is_None file_path) then
    (if is_None token then
       raise (ValueError
                "tokens must be provided when file_paths is provided.")
     else
       match file_path, token with
       | VList fs, VList ts =>
           if negb (List.length fs =? List.length ts)%nat then
             raise (ValueError
                      "Number of file paths and tokens must be the same.")
           else ret tt
       | VPath _, VStr _ => ret tt
       | _, _ =>
           raise (ValueError
                    "file_path and token must be either both single values or both lists.")
       end) ;;
    log (EvLoadTextualInversion file_path token) ;;
    pipe_method "load_textual_inversion"
      (fun p => pipe_load_textual_inversion p file_path token None)
  else if negb (is_None hf_model_id) then
    log (EvCacheLookup hf_model_id) ;;
    local_only <- observe (check_if_hf_cache_exists (CACHE_DIR E)
                             hf_model_id) ;;
    log (EvLoadTextualInversion hf_model_id VNone) ;;
    pipe_method "load_textual_inversion"
      (fun p => pipe_load_textual_inversion p hf_model_id VNone
                  (Some local_only))
  else
    raise (ValueError "Either file_path or hf_model_id must be provided.").

Definition unload_textual_inversion (tokens : PyVal) : M unit :=
  _check_model_ready ;;
  log (EvUnloadTextualInversion tokens) ;;
  pipe_method "unload_textual_inversion"
    (fun p => pipe_unload_textual_inversion p tokens).

Definition unload_all_textual_inversion : M unit :=
  _check_model_ready ;;
  log (EvUnloadTextualInversion VNone) ;;
  pipe_method "unload_textual_inversion"
    (fun p => pipe_unload_textual_inversion p VNone).

End StableDiffusion.

(** ** The region core: Geometry Engine and Compositor

    [preprocess_inputs] and [postprocess_outputs] live in
    [gen_ai/image_gen/utils/inpainting_utils.py], which is not among the
    files embedded above.  The definitions of this module follow the
    design document (sections 3, 4.1, 4.3 and 7) instead.  Pixel and mask
    values are exact rationals; the interpolation and smoothing kernels
    and the Poisson solver, which the document leaves open, are
    parameters. *)

Module Core.

(** Modelled from the spec: the error taxonomy of section 7, raised by
    the missing [inpainting_utils]. *)
Inductive CoreError : Set :=
  | GeometryError (msg : string)
  | PolicyError (msg : string)
  | ContractViolationError (msg : string).

(** Modelled from the spec: a pixel of the missing image buffers, three
    colour channels (section 3, Image). *)
Definition Pixel : Set := (Q * Q * Q)%type.

(** Modelled from the spec: the Image of section 3, a dense grid of
    pixels given by its rows. *)
Definition Image : Set := list (list Pixel).

(** Modelled from the spec: the Mask of section 3, a single-channel grid
    from 0 (keep original) to max (fully replace). *)
Definition Mask : Set := list (list Q).

(** Modelled from the spec: the BoundingBox of section 3, four integers
    with [right] and [bottom] exclusive. *)
Record BoundingBox : Set := mkBox {
  left : Z; top : Z; right : Z; bottom : Z
}.

(** Modelled from the spec: the RegionMapping of section 3, which the
    missing [preprocess_inputs] would hand to [postprocess_outputs]. *)
Record RegionMapping : Set := mkMapping {
  source_box : BoundingBox;
  out_width : Z;
  out_height : Z;
  policy : Pre.t
}.

(** Modelled from the spec: height of a grid (number of rows). *)
Definition grid_height {A : Type} (g : list (list A)) : Z :=
  Z.of_nat (List.length g).

(** Modelled from the spec: width of a grid (length of its first row). *)
Definition grid_width {A : Type} (g : list (list A)) : Z :=
  match g with
  | [] => 0
  | r :: _ => Z.of_nat (List.length r)
  end.

(** Modelled from the spec: the lengths of the rows of a grid; two grids
    are congruent (section 3, Mask) when these agree. *)
Definition shape {A : Type} (g : list (list A)) : list nat :=
  map (@List.length A) g.

(** Modelled from the spec: congruence test of section 4.3's first error
    condition. *)
Definition congruent {A B : Type} (g : list (list A)) (h : list (list B))
  : bool :=
  if list_eq_dec Nat.eq_dec (shape g) (shape h) then true else false.

(** Modelled from the spec: the cell of a grid at column [x], row [y]. *)
Definition at_xy {A : Type} (g : list (list A)) (x y : nat) : option A :=
  match nth_error g y with
  | Some r => nth_error r x
  | None => None
  end.

(** Modelled from the spec: cell-wise combination of two rows. *)
Fixpoint zip_row {A B C : Type} (f : A -> B -> C) (r : list A) (s : list B)
  : list C :=
  match r, s with
  | a :: r', b :: s' => f a b :: zip_row f r' s'
  | _, _ => []
  end.

(** Modelled from the spec: cell-wise combination of two grids. *)
Definition zip_grid {A B C : Type} (f : A -> B -> C)
  (g : list (list A)) (h : list (list B)) : list (list C) :=
  zip_row (zip_row f) g h.

(** Modelled from the spec: a row with the column index of each cell. *)
Fixpoint indexed_from {A : Type} (i : nat) (r : list A) : list (nat * A) :=
  match r with
  | [] => []
  | a :: r' => (i, a) :: indexed_from (S i) r'
  end.

(** Modelled from the spec: the first colour channel of a pixel. *)
Definition red (p : Pixel) : Q := fst (fst p).

(** Modelled from the spec: the second colour channel of a pixel. *)
Definition green (p : Pixel) : Q := snd (fst p).

(** Modelled from the spec: the third colour channel of a pixel. *)
Definition blue (p : Pixel) : Q := snd p.

(** Modelled from the spec: two pixels are the same colour, channel by
    channel, as rational numbers. *)
Definition same_pixel (a b : Pixel) : Prop :=
  (red a == red b /\ green a == green b /\ blue a == blue b)%Q.

(** Modelled from the spec: no cell of the mask exceeds the threshold
    (the empty region of sections 4.1 and 4.3). *)
Definition unmarked_mask (threshold : Q) (m : Mask) : Prop :=
  Forall (Forall (fun v => (v <= threshold)%Q)) m.

Section Policies.

(** The masked threshold of section 4.1 and the mask value [max] of
    section 3. *)
Variable threshold : Q.
Variable max_value : Q.

(** The kernels section 4.2 and 4.3 name without defining. *)
Variable resize_image : Image -> Z -> Z -> Image.
Variable gaussian_kernel : Mask -> Mask.
Variable smooth_kernel : Mask -> Mask.
Variable smoother_kernel : Mask -> Mask.
Variable poisson_clone : Image -> Mask -> Image -> Image.

(** Modelled from the spec: a mask value above the masked threshold
    (section 4.1). *)
Definition marked (v : Q) : bool := negb (Qle_bool v threshold).

(** Modelled from the spec: the scan of [compute_bounding_box], the
    coordinates [(x, y)] of the marked cells in row-major order. *)
Definition marked_coords (m : Mask) : list (nat * nat) :=
  List.concat
    (map (fun yr : nat * list Q =>
            map (fun xv : nat * Q => (fst xv, fst yr))
              (filter (fun xv : nat * Q => marked (snd xv))
                 (indexed_from 0 (snd yr))))
       (indexed_from 0 m)).

(** Modelled from the spec: [compute_bounding_box] of section 4.1, the
    minimal rectangle enclosing the marked cells, or the empty-region
    error when there is none. *)
Definition compute_bounding_box (m : Mask) : CoreError + BoundingBox :=
  match marked_coords m with
  | [] => inl (GeometryError "empty region: no mask pixel above threshold")
  | (x, y) :: rest =>
      let xs := map fst rest in
      let ys := map snd rest in
      inr (mkBox (Z.of_nat (fold_right Nat.min x xs))
                 (Z.of_nat (fold_right Nat.min y ys))
                 (Z.of_nat (S (fold_right Nat.max x xs)))
                 (Z.of_nat (S (fold_right Nat.max y ys))))
  end.

(** Modelled from the spec: the BoundingBox invariant of section 3 for an
    image of the given width and height. *)
Definition box_within (b : BoundingBox) (w h : Z) : bool :=
  (0 <=? left b) && (left b <? right b) && (right b <=? w) &&
  (0 <=? top b) && (top b <? bottom b) && (bottom b <=? h).

(** Modelled from the spec: step 2 of [composite], the patch laid over a
    canvas of the original's size with its corner at the box origin. *)
Definition place (original patch : Image) (b : BoundingBox) : Image :=
  map (fun yr : nat * list Pixel =>
         map (fun xo : nat * Pixel =>
                let x := Z.of_nat (fst xo) in
                let y := Z.of_nat (fst yr) in
                if (left b <=? x) && (x <? right b) &&
                   (top b <=? y) && (y <? bottom b)
                then
                  match at_xy patch (Z.to_nat (x - left b))
                          (Z.to_nat (y - top b)) with
                  | Some p => p
                  | None => snd xo
                  end
                else snd xo)
           (indexed_from 0 (snd yr)))
    (indexed_from 0 original).

(** Modelled from the spec: DIRECT_REPLACE of section 4.3, a hard cut at
    the mask boundary. *)
Definition replace_pixel (o : Pixel) (mp : Q * Pixel) : Pixel :=
  if marked (fst mp) then snd mp else o.

(** Modelled from the spec: the LINEAR convex combination of section 4.3
    on one channel, [out = mask*patch + (1-mask)*original] with the mask
    value normalised by [max]. *)
Definition mix (m o p : Q) : Q :=
  ((m / max_value) * p + (1 - m / max_value) * o)%Q.

(** Modelled from the spec: the LINEAR combination on the three channels
    of a pixel. *)
Definition linear_pixel (o : Pixel) (mp : Q * Pixel) : Pixel :=
  match o, snd mp with
  | (o1, o2, o3), (p1, p2, p3) =>
      (mix (fst mp) o1 p1, mix (fst mp) o2 p2, mix (fst mp) o3 p3)
  end.

(** Modelled from the spec: the weighted-average blends of section 4.3
    over whole grids. *)
Definition combine_with (f : Pixel -> Q * Pixel -> Pixel)
  (original : Image) (m : Mask) (patch : Image) : Image :=
  zip_grid f original (zip_grid (@pair Q Pixel) m patch).

(** Modelled from the spec: the dispatch on the blend variant of
    section 4.3; BLEND with variant NONE is the inconsistent combination
    of section 7. *)
Definition blend (variant : Blend.t) (original : Image) (m : Mask)
  (patch : Image) : CoreError + Image :=
  match variant with
  | Blend.NONE => inl (PolicyError "BLEND requested without a variant")
  | Blend.POISSON_BLENDING => inr (poisson_clone original m patch)
  | Blend.GAUSSIAN_BLENDING =>
      inr (combine_with linear_pixel original (gaussian_kernel m) patch)
  | Blend.LINEAR_BLENDING => inr (combine_with linear_pixel original m patch)
  | Blend.SMOOTH_BLENDING =>
      inr (combine_with linear_pixel original (smooth_kernel m) patch)
  | Blend.SMOOTHER_BLENDING =>
      inr (combine_with linear_pixel original (smoother_kernel m) patch)
  end.

(** Modelled from the spec: steps 1 and 2 of [composite], the model
    output resized to the recorded box and placed in original
    coordinates. *)
Definition placed_patch (original model_output : Image)
  (mapping : RegionMapping) : Image :=
  let b := source_box mapping in
  let patch := resize_image model_output (right b - left b)
                 (bottom b - top b) in
  match policy mapping with
  | Pre.CROP_AND_RESIZE => place original patch b
  | Pre.NONE | Pre.RESIZE => patch
  end.

(** Modelled from the spec: [composite] of section 4.3 with its error
    conditions: incongruent mask, empty mask under DIRECT_REPLACE or
    BLEND, and a box outside the image are geometry errors. *)
Definition composite (original : Image) (m : Mask) (model_output : Image)
  (mapping : RegionMapping) (post : Post.t) (variant : Blend.t)
  : CoreError + Image :=
  if negb (congruent original m) then
    inl (GeometryError "mask and image dimensions differ")
  else if negb (box_within (source_box mapping) (grid_width original)
                  (grid_height original)) then
    inl (GeometryError "bounding box exceeds the image")
  else
    let patch := placed_patch original model_output mapping in
    match post with
    | Post.NONE =>
        match policy mapping with
        | Pre.CROP_AND_RESIZE =>
            inl (PolicyError "NONE needs a patch covering the whole image")
        | _ => inr patch
        end
    | Post.DIRECT_REPLACE =>
        match compute_bounding_box m with
        | inl e => inl e
        | inr _ => inr (combine_with replace_pixel original m patch)
        end
    | Post.BLEND =>
        match compute_bounding_box m with
        | inl e => inl e
        | inr _ => blend variant original m patch
        end
    end.

End Policies.

End Core.

(** ** A concrete setting

    A small instance of the collaborators, on which the definitions above
    can be run: the outside world counts the generation calls made so
    far, [prepared] is what [preprocess_inputs] returns, and [generate k]
    is the outcome of generation call number [k]. *)

Module Scenario.

Definition original : Image :=
  mkImage (4, 4) [10; 11; 12; 13; 14; 15; 16; 17; 18; 19; 20; 21; 22; 23; 24; 25].
Definition original_mask : Image :=
  mkImage (4, 4) [0; 0; 0; 0; 0; 255; 255; 0; 0; 255; 255; 0; 0; 0; 0; 0].
Definition region_image : Image := mkImage (2, 2) [15; 16; 19; 20].
Definition region_mask : Image := mkImage (2, 2) [255; 255; 255; 255].

(** A generated image of the requested 2x2 size, and one of another
    size. *)
Definition patch (k : Z) : Image := mkImage (2, 2) [k; k; k; k].
Definition misshapen : Image := mkImage (3, 1) [7; 7; 7].

Definition prepared_pair : PyVal :=
  VTuple [VImage region_image; VImage region_mask].

(** What a [prepare] that also returned a region mapping would hand
    back: the pair and a third component (box, output size, policy). *)
Definition prepared_triple : PyVal :=
  VTuple [VImage region_image; VImage region_mask;
          VTuple [VTuple [VInt 1; VInt 1; VInt 3; VInt 3];
                  VTuple [VInt 2; VInt 2]; VInt 3]].

Definition studio (prepared : PyVal) (generate : nat -> PyExn + list Image)
  : Externals :=
  {| Ext := nat;
     Pipeline := string;
     Scheduler := string;
     SchedulerType := string;
     GenParams := string;
     Generator := Z;
     CACHE_DIR := ["models"; "diffusers_cache"];
     TEXT2IMG_MODEL_ID := "text2img-model";
     IMG2IMG_MODEL_ID := "img2img-model";
     INPAINTING_MODEL_ID := "inpainting-model";
     pathify_strings :=
       fun v => match v with VStr s => VPath [s] | _ => v end;
     check_if_hf_cache_exists := fun _ _ _ => true;
     from_pretrained := fun _ d _ _ x => (inr d, x);
     from_single_file := fun _ d _ _ x => (inr d, x);
     pipe_to := fun p _ x => (inr p, x);
     set_safety_checker_None := fun p => p;
     set_scheduler := fun _ p => p;
     get_scheduler := fun t => inr t;
     pipe_call := fun _ _ k => (generate k, S k);
     preprocess_inputs := fun _ _ _ _ _ => inr prepared;
     postprocess_outputs :=
       fun im _ inpainted _ _ _ => inr (mkImage (size im) (data inpainted));
     save_images := fun _ _ x => (inr tt, x);
     path_mkdir := fun _ x => (inr tt, x);
     pipe_load_textual_inversion := fun p _ _ _ x => (inr p, x);
     pipe_unload_textual_inversion := fun p _ x => (inr p, x) |}.

(** Every generation call returns one image of the requested size. *)
Definition steady (k : nat) : PyExn + list Image :=
  inr [patch (Z.of_nat k)].

(** The second generation call fails; the others return one image. *)
Definition second_fails (k : nat) : PyExn + list Image :=
  match k with
  | 1%nat => inl (ExternalError "CUDA out of memory")
  | _ => inr [patch (Z.of_nat k)]
  end.

(** Every generation call returns an image that is not 2x2. *)
Definition wrong_size (k : nat) : PyExn + list Image := inr [misshapen].

Definition inpainting_model (E : Externals) (g : Generator E)
  : StableDiffusionModelConfig E :=
  mkModelConfig (Some "inpainting-model") None "cuda" INPAINTING false
    (Some 42) (Some g).

Definition job (E : Externals) (prm : GenParams E) (n : Z)
  : StableDiffusionInputConfig E :=
  mkInputConfig original original_mask 2 2 n Pre.CROP_AND_RESIZE
    Post.DIRECT_REPLACE Blend.NONE None prm.

(** An instance whose pipeline is loaded, and one whose pipeline is
    not. *)
Definition loaded (E : Externals) (p : Pipeline E) (g : Generator E)
  (x : Ext E) : World E :=
  mkWorld (mkSelf (Some p) (Some (inpainting_model g))) x [].

Definition unloaded (E : Externals) (g : Generator E) (x : Ext E)
  : World E :=
  mkWorld (mkSelf None (Some (inpainting_model g))) x [].

Definition out_dir : PyVal := VPath ["out"].

(** The three settings used below: generation always succeeds; the
    second generation call fails; the preparation returns a triple; the
    generation returns images of the wrong size. *)
Definition E_steady : Externals := studio prepared_pair steady.
Definition E_second_fails : Externals := studio prepared_pair second_fails.
Definition E_triple : Externals := studio prepared_triple steady.
Definition E_wrong_size : Externals := studio prepared_pair wrong_size.

Definition run_inpainting (E : Externals) (prm : GenParams E)
  (p : Pipeline E) (g : Generator E) (x : Ext E) (n : Z)
  : (PyExn + list Image) * World E :=
  _generate_images_inpainting (job prm n) out_dir (loaded p g x).

(** A one-row image of three pixels, a graded mask over it, a patch of
    the same size, and the whole-image mapping of policy RESIZE; 8-bit
    values, threshold 127, kernels that leave their argument alone. *)
Definition strip : Core.Image := [[(10, 20, 30); (40, 50, 60); (70, 80, 90)]]%Q.
Definition strip_patch : Core.Image :=
  [[(200, 200, 200); (100, 110, 120); (0, 10, 20)]]%Q.
Definition graded_mask : Core.Mask := [[0; 255; 51]]%Q.
Definition zero_mask : Core.Mask := [[0; 0; 0]]%Q.
Definition whole_strip : Core.RegionMapping :=
  Core.mkMapping (Core.mkBox 0 0 3 1) 3 1 Pre.RESIZE.

Definition composite_8bit (original : Core.Image) (m : Core.Mask)
  (model_output : Core.Image) (mapping : Core.RegionMapping)
  (post : Post.t) (variant : Blend.t) : Core.CoreError + Core.Image :=
  Core.composite 127 255 (fun im _ _ => im) (fun k => k) (fun k => k)
    (fun k => k) (fun o _ _ => o) original m model_output mapping post
    variant.

End Scenario.

(** ** Python's [re], as far as the prompt validator uses it

    A [str] is a sequence of Unicode code points.  A pattern denotes a set
    of texts ([Matches]); [fullmatch] decides membership by derivatives,
    and [search] is [re.search(...) is not None]: some part of the text
    matches. *)

Module Re.

Definition Text : Set := list N.

Definition text_of_string (s : string) : Text :=
  map Ascii.N_of_ascii (list_ascii_of_string s).

Inductive Regex : Type :=
  | Void
  | Eps
  | Class (p : N -> bool)
  | Cat (r s : Regex)
  | Alt (r s : Regex)
  | Star (r : Regex).

(** One given character; [r+]; a literal run of characters; any
    character. *)
Definition Lit (c : N) : Regex := Class (N.eqb c).

Definition Plus (r : Regex) : Regex := Cat r (Star r).

Fixpoint literal (t : Text) : Regex :=
  match t with
  | [] => Eps
  | c :: t' => Cat (Lit c) (literal t')
  end.

Definition Anything : Regex := Star (Class (fun _ => true)).

Inductive Matches : Regex -> Text -> Prop :=
  | MEps : Matches Eps []
  | MClass (p : N -> bool) (c : N) : p c = true -> Matches (Class p) [c]
  | MCat (r s : Regex) (t u : Text) :
      Matches r t -> Matches s u -> Matches (Cat r s) (t ++ u)%list
  | MAltL (r s : Regex) (t : Text) : Matches r t -> Matches (Alt r s) t
  | MAltR (r s : Regex) (t : Text) : Matches s t -> Matches (Alt r s) t
  | MStarNil (r : Regex) : Matches (Star r) []
  | MStarApp (r : Regex) (t u : Text) :
      Matches r t -> Matches (Star r) u -> Matches (Star r) (t ++ u)%list.

Fixpoint nullable (r : Regex) : bool :=
  match r with
  | Void => false
  | Eps => true
  | Class _ => false
  | Cat r s => nullable r && nullable s
  | Alt r s => nullable r || nullable s
  | Star _ => true
  end.

Fixpoint derive (c : N) (r : Regex) : Regex :=
  match r with
  | Void => Void
  | Eps => Void
  | Class p => if p c then Eps else Void
  | Cat r s =>
      Alt (Cat (derive c r) s) (if nullable r then derive c s else Void)
  | Alt r s => Alt (derive c r) (derive c s)
  | Star r => Cat (derive c r) (Star r)
  end.

Definition fullmatch (r : Regex) (t : Text) : bool :=
  nullable (fold_left (fun r c => derive c r) t r).

Definition search (r : Regex) (t : Text) : bool :=
  fullmatch (Cat Anything (Cat r Anything)) t.

End Re.

(** ** The Florence-2 prompt validator ([input_validator.py])

    [Florence2TaskTypes] is imported from [gen_ai.constants]; the three
    members the validator names are constructors, and
    [OTHER_FLORENCE2_TASK] stands for any further member.  [unicode_Nd]
    is the class [\d] of a [str] pattern: the decimal digits of the
    Unicode database. *)

Module Florence2.

Inductive Florence2TaskTypes : Set :=
  | REGION_TO_CATEGORY
  | REGION_TO_DESCRIPTION
  | REGION_TO_SEGMENTATION
  | OTHER_FLORENCE2_TASK (name : string).

Definition task_eqb (a b : Florence2TaskTypes) : bool :=
  match a, b with
  | REGION_TO_CATEGORY, REGION_TO_CATEGORY => true
  | REGION_TO_DESCRIPTION, REGION_TO_DESCRIPTION => true
  | REGION_TO_SEGMENTATION, REGION_TO_SEGMENTATION => true
  | OTHER_FLORENCE2_TASK x, OTHER_FLORENCE2_TASK y => String.eqb x y
  | _, _ => false
  end.

Section Validator.

Variable unicode_Nd : N -> bool.

(** [r"<loc_\d+>"] *)
Definition pattern : Re.Regex :=
  Re.Cat (Re.literal (Re.text_of_string "<loc_"))
    (Re.Cat (Re.Plus (Re.Class unicode_Nd))
       (Re.literal (Re.text_of_string ">"))).

Definition _validate_location_prompt (text_prompt : Re.Text) : bool :=
  Re.search pattern text_prompt.

Definition tasks_using_loc_prompts : list Florence2TaskTypes :=
  [REGION_TO_CATEGORY; REGION_TO_DESCRIPTION; REGION_TO_SEGMENTATION].

Definition validate_prompt (text_prompt : Re.Text)
  (task_prompt : Florence2TaskTypes) : bool :=
  if existsb (task_eqb task_prompt) tasks_using_loc_prompts
  then _validate_location_prompt text_prompt
  else true.

End Validator.

(** A location token: [<loc_], one or more decimal digits, [>]. *)
Definition location_token (digits : Re.Text) : Re.Text :=
  (Re.text_of_string "<loc_" ++ digits ++ Re.text_of_string ">")%list.

(** The decimal digits of ASCII, the part of [\d] below code point 128. *)
Definition ascii_digit (c : N) : bool := ((48 <=? c) && (c <=? 57))%N.

End Florence2.

(** ** The instance over its life

    The methods a caller has ([__init__] apart), the worlds an instance
    can be in when only these methods touch it, and the relations between
    the world before and after a computation that the properties below
    are stated with. *)

Section Interface.

Variable E : Externals.

Local Open Scope py_scope.

(** The configuration names exactly one model source. *)
Definition one_source (c : StableDiffusionModelConfig E) : bool :=
  xorb (is_Some (hf_model_id c)) (is_Some (model_path c)).

(** A loaded pipeline comes with a configuration that names exactly one
    model source. *)
Definition coherent (s : Self E) : Prop :=
  match pipe s with
  | None => True
  | Some _ => exists c, model_config s = Some c /\ one_source c = true
  end.

Inductive MethodCall : Type :=
  | Call_update_pipeline (c : StableDiffusionModelConfig E)
  | Call_generate_images (config : StableDiffusionInputConfig E)
      (output_dir : PyVal)
  | Call_load_textual_inversion (hf_model_id file_path token : PyVal)
  | Call_unload_textual_inversion (tokens : PyVal)
  | Call_unload_all_textual_inversion.

(** The outcome of a method call, its value forgotten, and the world it
    leaves. *)
Definition outcome {A : Type} (r : (PyExn + A) * World E)
  : (PyExn + unit) * World E :=
  (match fst r with inl e => inl e | inr _ => inr tt end, snd r).

Definition perform (c : MethodCall) (w : World E)
  : (PyExn + unit) * World E :=
  match c with
  | Call_update_pipeline cfg => outcome (update_pipeline cfg w)
  | Call_generate_images config d => outcome (generate_images config d w)
  | Call_load_textual_inversion hf fp tok =>
      outcome (load_textual_inversion hf fp tok w)
  | Call_unload_textual_inversion tokens =>
      outcome (unload_textual_inversion tokens w)
  | Call_unload_all_textual_inversion =>
      outcome (unload_all_textual_inversion w)
  end.

(** The worlds of an instance: the one a returning [__init__] leaves,
    and from there any method call, returning or raising, and any change
    of the outside world between calls. *)
Inductive reachable : World E -> Prop :=
  | reach_init (config : option (StableDiffusionModelConfig E))
      (x : Ext E) (w : World E) :
      __init__ config (mkWorld (mkSelf None None) x []) = (inr tt, w) ->
      reachable w
  | reach_call (c : MethodCall) (w : World E) :
      reachable w -> reachable (snd (perform c w))
  | reach_outside (x : Ext E) (w : World E) :
      reachable w -> reachable (mkWorld (self w) x (trace w)).

(** The instance is the same before and after. *)
Definition keeps_self (w w' : World E) : Prop := self w' = self w.

(** The call log has only grown, by entries that satisfy [P]. *)
Definition logs (P : Event E -> Prop) (w w' : World E) : Prop :=
  exists t, trace w' = (trace w ++ t)%list /\ Forall P t.

(** Every run of [m] relates the world before to the world after by
    [R], whether it returns or raises. *)
Definition respects {A : Type} (R : World E -> World E -> Prop) (m : M E A)
  : Prop :=
  forall w r w', m w = (r, w') -> R w w'.

(** What is left of a task when [num_batches] is not positive: the
    empty list is saved, if an output directory was given, and
    returned. *)
Definition empty_run (output_dir : PyVal) : M E (list Image) :=
  save_if_requested [] output_dir ;; ret [].

End Interface.

Section InterfaceRelations.

Variable E : Externals.

(** The configuration is the same before and after, and a pipeline is
    loaded after exactly if one was before. *)
Definition same_shape (w w' : World E) : Prop :=
  model_config (self w') = model_config (self w) /\
  is_Some (pipe (self w')) = is_Some (pipe (self w)).

(** One completed turn of a text-to-image or image-to-image loop: the
    generator passed and the images the pipeline returned. *)
Record PlainTurn : Type := mkPlainTurn {
  turn_generator : option (Generator E);
  turn_images : list Image
}.

(** The turn was made on the instance [s] with the arguments [args]
    built from the generator of its configuration. *)
Definition turn_of_loop (args : option (Generator E) -> PipeArgsE E)
  (s : Self E) (t : PlainTurn) : Prop :=
  (exists c, model_config s = Some c /\ turn_generator t = generator c) /\
  (exists p x x',
      pipe s = Some p /\
      pipe_call p (args (turn_generator t)) x = (inr (turn_images t), x')).

(** The generation calls of a run of completed turns. *)
Definition turn_calls (args : option (Generator E) -> PipeArgsE E)
  (turns : list PlainTurn) : list (Event E) :=
  map (fun t => EvGenerate (args (turn_generator t))) turns.

End InterfaceRelations.

(** ** More of the concrete setting *)

Module Backstage.

Import Scenario.

(** The setting of [Scenario.studio] with no model to be found: both
    loaders raise. *)
Definition offline : Externals :=
  {| Ext := nat;
     Pipeline := string;
     Scheduler := string;
     SchedulerType := string;
     GenParams := string;
     Generator := Z;
     CACHE_DIR := ["models"; "diffusers_cache"];
     TEXT2IMG_MODEL_ID := "text2img-model";
     IMG2IMG_MODEL_ID := "img2img-model";
     INPAINTING_MODEL_ID := "inpainting-model";
     pathify_strings :=
       fun v => match v with VStr s => VPath [s] | _ => v end;
     check_if_hf_cache_exists := fun _ _ _ => false;
     from_pretrained :=
       fun _ _ _ _ x => (inl (ExternalError "model not found"), x);
     from_single_file :=
       fun _ _ _ _ x => (inl (ExternalError "file not found"), x);
     pipe_to := fun p _ x => (inr p, x);
     set_safety_checker_None := fun p => p;
     set_scheduler := fun _ p => p;
     get_scheduler := fun t => inr t;
     pipe_call := fun _ _ k => (steady k, S k);
     preprocess_inputs := fun _ _ _ _ _ => inr prepared_pair;
     postprocess_outputs :=
       fun im _ inpainted _ _ _ => inr (mkImage (size im) (data inpainted));
     save_images := fun _ _ x => (inr tt, x);
     path_mkdir := fun _ x => (inr tt, x);
     pipe_load_textual_inversion := fun p _ _ _ x => (inr p, x);
     pipe_unload_textual_inversion := fun p _ x => (inr p, x) |}.

Definition model_for (E : Externals) (id : string)
  (task : ImageGenTaskTypes) (g : Generator E)
  : StableDiffusionModelConfig E :=
  mkModelConfig (Some id) None "cuda" task false (Some 42) (Some g).

(** Before [__init__] has run; built without a configuration; built
    with one and loaded. *)
Definition blank (E : Externals) (x : Ext E) : World E :=
  mkWorld (mkSelf None None) x [].

Definition loaded_for (E : Externals) (p : Pipeline E) (id : string)
  (task : ImageGenTaskTypes) (g : Generator E) (x : Ext E) : World E :=
  mkWorld (mkSelf (Some p) (Some (model_for id task g))) x [].

Definition prompt (s : string) : Re.Text := Re.text_of_string s.

End Backstage.

(* ================================================================== *)
(** * Part II. Properties                                              *)
(* ================================================================== *)

(** ** The enumerations *)

Lemma pre_of_value_spec (v : Z) (x : Pre.t) :
  Pre.of_value v = Some x <-> Pre.value x = v.
Proof.
  unfold Pre.of_value, Pre.members; cbn -[Z.eqb].
  split.
  - repeat match goal with
           | |- context [Z.eqb ?a v] =>
               destruct (Z.eqb_spec a v) as [? | ?];
               [ intros [= <-]; assumption | ]
           end.
    intros [=].
  - intros <-; destruct x; reflexivity.
Qed.

Lemma post_of_value_spec (v : Z) (x : Post.t) :
  Post.of_value v = Some x <-> Post.value x = v.
Proof.
  unfold Post.of_value, Post.members; cbn -[Z.eqb].
  split.
  - repeat match goal with
           | |- context [Z.eqb ?a v] =>
               destruct (Z.eqb_spec a v) as [? | ?];
               [ intros [= <-]; assumption | ]
           end.
    intros [=].
  - intros <-; destruct x; reflexivity.
Qed.

Lemma blend_of_value_spec (v : Z) (x : Blend.t) :
  Blend.of_value v = Some x <-> Blend.value x = v.
Proof.
  unfold Blend.of_value, Blend.members; cbn -[Z.eqb].
  split.
  - repeat match goal with
           | |- context [Z.eqb ?a v] =>
               destruct (Z.eqb_spec a v) as [? | ?];
               [ intros [= <-]; assumption | ]
           end.
    intros [=].
  - intros <-; destruct x; reflexivity.
Qed.

(** C3: the three policy enumerations carry exactly the integers of the
    public contract.  Preprocess: NONE=1, RESIZE=2, CROP_AND_RESIZE=3;
    postprocess: NONE=1, DIRECT_REPLACE=2, BLEND=3; blend variant: NONE=1,
    POISSON=2, GAUSSIAN=3, LINEAR=4, SMOOTH=5, SMOOTHER=6.  There is no
    other member: the member lists are complete and free of repetition,
    and an integer is the value of a member exactly when it lies in 1..3,
    1..3 and 1..6 respectively. *)
Theorem policy_enumerations_are_stable :
  (Pre.value Pre.NONE = 1 /\ Pre.value Pre.RESIZE = 2 /\
   Pre.value Pre.CROP_AND_RESIZE = 3) /\
  (Post.value Post.NONE = 1 /\ Post.value Post.DIRECT_REPLACE = 2 /\
   Post.value Post.BLEND = 3) /\
  (Blend.value Blend.NONE = 1 /\ Blend.value Blend.POISSON_BLENDING = 2 /\
   Blend.value Blend.GAUSSIAN_BLENDING = 3 /\
   Blend.value Blend.LINEAR_BLENDING = 4 /\
   Blend.value Blend.SMOOTH_BLENDING = 5 /\
   Blend.value Blend.SMOOTHER_BLENDING = 6) /\
  ((forall x : Pre.t, In x Pre.members) /\ NoDup (map Pre.value Pre.members) /\
   (forall x : Post.t, In x Post.members) /\
   NoDup (map Post.value Post.members) /\
   (forall x : Blend.t, In x Blend.members) /\
   NoDup (map Blend.value Blend.members)) /\
  ((forall v, (exists x, Pre.of_value v = Some x) <-> 1 <= v <= 3) /\
   (forall v, (exists x, Post.of_value v = Some x) <-> 1 <= v <= 3) /\
   (forall v, (exists x, Blend.of_value v = Some x) <-> 1 <= v <= 6)).
Proof.
  split; [ repeat split | ].
  split; [ repeat split | ].
  split; [ repeat split | ].
  split.
  - repeat split;
      try (intros x; destruct x; simpl; tauto);
      simpl; repeat constructor; simpl; intuition discriminate.
  - split; [ | split ]; intros v; split.
    + intros [x Hx]; apply pre_of_value_spec in Hx; destruct x; simpl in Hx; lia.
    + intros Hv.
      assert (Hc : v = 1 \/ v = 2 \/ v = 3) by lia.
      destruct Hc as [-> | [-> | ->]]; eexists; reflexivity.
    + intros [x Hx]; apply post_of_value_spec in Hx; destruct x; simpl in Hx; lia.
    + intros Hv.
      assert (Hc : v = 1 \/ v = 2 \/ v = 3) by lia.
      destruct Hc as [-> | [-> | ->]]; eexists; reflexivity.
    + intros [x Hx]; apply blend_of_value_spec in Hx; destruct x; simpl in Hx; lia.
    + intros Hv.
      assert (Hc : v = 1 \/ v = 2 \/ v = 3 \/ v = 4 \/ v = 5 \/ v = 6) by lia.
      destruct Hc as [-> | [-> | [-> | [-> | [-> | ->]]]]];
        eexists; reflexivity.
Qed.

(** ** Laws of the monad *)

Section MonadFacts.

Variable W : Type.

Local Open Scope py_scope.

Lemma bind_value (A B : Type) (m : Py W A) (k : A -> Py W B)
  (w w' : W) (a : A) :
  m w = (inr a, w') -> bind m k w = k a w'.
Proof. intros H; unfold bind; rewrite H; reflexivity. Qed.

Lemma bind_raises (A B : Type) (m : Py W A) (k : A -> Py W B)
  (w w' : W) (e : PyExn) :
  m w = (inl e, w') -> bind m k w = (inl e, w').
Proof. intros H; unfold bind; rewrite H; reflexivity. Qed.

(** A sequence that returns has run its first step to a value. *)
Lemma bind_returns (A B : Type) (m : Py W A) (k : A -> Py W B)
  (w w' : W) (b : B) :
  bind m k w = (inr b, w') ->
  exists a w1, m w = (inr a, w1) /\ k a w1 = (inr b, w').
Proof.
  unfold bind; destruct (m w) as [[e | a] w1]; intros H.
  - discriminate.
  - exists a, w1; split; [ reflexivity | exact H ].
Qed.

(** The loop over [range(a + b)] is the loop over [range(a)] followed by
    the loop over [range(b)]. *)
Lemma for_range_add (A : Type) (body : A -> Py W A) (a b : nat) (acc : A)
  (w : W) :
  for_range (a + b) body acc w
  = bind (for_range a body acc) (for_range b body) w.
Proof.
  revert acc w; induction a as [| a IH]; intros acc w; simpl.
  - reflexivity.
  - unfold bind.
    destruct (body acc w) as [[e | acc'] w1]; [ reflexivity | ].
    rewrite IH; reflexivity.
Qed.

(** Once a turn of the loop raises, the loop raises the same exception
    in the same state: later turns are not run and the accumulator is
    lost. *)
Lemma for_range_raises (A : Type) (body : A -> Py W A) (k n : nat)
  (acc acc' : A) (w wk wf : W) (e : PyExn) :
  (k < n)%nat ->
  for_range k body acc w = (inr acc', wk) ->
  body acc' wk = (inl e, wf) ->
  for_range n body acc w = (inl e, wf).
Proof.
  intros Hk Hpre Hfail.
  replace n with (k + S (n - S k))%nat by lia.
  rewrite for_range_add.
  rewrite (bind_value _ Hpre).
  simpl. apply bind_raises. exact Hfail.
Qed.

Lemma comprehension_returns (A B : Type) (f : A -> Py W B) (xs : list A)
  (ys : list B) (w w' : W) :
  comprehension f xs w = (inr ys, w') ->
  List.length ys = List.length xs.
Proof.
  revert ys w w'; induction xs as [| x xs IH]; intros ys w w' H; simpl in H.
  - injection H as <- _; reflexivity.
  - apply bind_returns in H as (y & w1 & _ & H).
    apply bind_returns in H as (ys' & w2 & Hrest & H).
    injection H as <- _. simpl. f_equal. eapply IH; eassumption.
Qed.

End MonadFacts.

(** ** The readiness guard and the pipeline loader *)

Section GuardFacts.

Variable E : Externals.

Local Open Scope py_scope.

Lemma string_eqb_same (s : string) : String.eqb s s = true.
Proof. apply String.eqb_refl. Qed.

Lemma path_eqb_same (p : Path) : path_eqb p p = true.
Proof.
  unfold path_eqb; destruct (list_eq_dec string_dec p p); congruence.
Qed.

Lemma check_model_ready_unloaded (w : World E) :
  pipe (self w) = None ->
  _check_model_ready w = (inl (ValueError "Model not loaded."), w).
Proof.
  intros H; unfold _check_model_ready, bind, get_self; rewrite H; reflexivity.
Qed.

Lemma check_model_ready_loaded (w : World E) (p : Pipeline E) :
  pipe (self w) = Some p -> _check_model_ready w = (inr tt, w).
Proof.
  intros H; unfold _check_model_ready, bind, get_self; rewrite H; reflexivity.
Qed.

(** C8: while no pipeline is loaded, [generate_images],
    [load_textual_inversion], [unload_textual_inversion] and
    [unload_all_textual_inversion] each raise [ValueError("Model not
    loaded.")] and leave the instance, the outside world and the call log
    exactly as they were: nothing is generated, no file or directory is
    touched, no pipeline attribute is set. *)
Theorem unloaded_model_is_refused (w : World E)
  (config : StableDiffusionInputConfig E)
  (output_dir hf file_path token tokens : PyVal) :
  pipe (self w) = None ->
  generate_images config output_dir w
    = (inl (ValueError "Model not loaded."), w) /\
  load_textual_inversion hf file_path token w
    = (inl (ValueError "Model not loaded."), w) /\
  unload_textual_inversion tokens w
    = (inl (ValueError "Model not loaded."), w) /\
  unload_all_textual_inversion w
    = (inl (ValueError "Model not loaded."), w).
Proof.
  intros H.
  pose proof (check_model_ready_unloaded H) as Hguard.
  repeat split.
  - unfold generate_images. apply bind_raises. exact Hguard.
  - unfold load_textual_inversion. apply bind_raises. exact Hguard.
  - unfold unload_textual_inversion. apply bind_raises. exact Hguard.
  - unfold unload_all_textual_inversion. apply bind_raises. exact Hguard.
Qed.

(** C9: [generate_images] cannot succeed with [output_dir=None].  The
    decorator is taken to leave [None] alone.  With no pipeline the guard
    raises; with a pipeline loaded, [output_dir.mkdir] raises
    [AttributeError] on [None].  Either way the call ends before the
    scheduler is set and before any generation task is entered: instance,
    outside world and call log are unchanged. *)
Theorem generate_images_needs_output_dir (w : World E)
  (config : StableDiffusionInputConfig E) :
  pathify_strings E VNone = VNone ->
  generate_images config VNone w
  = (inl (if is_Some (pipe (self w))
          then AttributeError "'NoneType' object has no attribute 'mkdir'"
          else ValueError "Model not loaded."), w).
Proof.
  intros Hdec. unfold generate_images. rewrite Hdec.
  destruct (pipe (self w)) as [p |] eqn:Hp; simpl.
  - rewrite (bind_value _ (check_model_ready_loaded Hp)).
    apply bind_raises. reflexivity.
  - apply bind_raises. apply check_model_ready_unloaded. exact Hp.
Qed.

(** C10: [_load_pipeline] does nothing when asked for the model that is
    already recorded and loaded.  With a pipeline loaded, a request by
    [hf_model_id] equal to the recorded one, or by [model_path] equal to
    the recorded one, returns at once: the instance (pipeline and
    configuration), the outside world and the call log are unchanged, so
    nothing was loaded.  [update_pipeline] with such a configuration
    likewise keeps the pipeline and loads nothing; it then records the
    configuration it was given. *)
Theorem load_pipeline_is_idempotent (w : World E) (p : Pipeline E)
  (c : StableDiffusionModelConfig E) :
  pipe (self w) = Some p ->
  model_config (self w) = Some c ->
  (forall id dev,
      hf_model_id c = Some id ->
      _load_pipeline (Some id) None dev w = (inr tt, w)) /\
  (forall path dev,
      model_path c = Some path ->
      _load_pipeline None (Some path) dev w = (inr tt, w)) /\
  (forall new : StableDiffusionModelConfig E,
      (exists id, hf_model_id new = Some id /\ hf_model_id c = Some id /\
                  model_path new = None) \/
      (exists path, model_path new = Some path /\ model_path c = Some path /\
                    hf_model_id new = None) ->
      update_pipeline new w
      = (inr tt, mkWorld (mkSelf (Some p) (Some new)) (ext w) (trace w))).
Proof.
  intros Hp Hc.
  assert (Hhf : forall id dev, hf_model_id c = Some id ->
                  _load_pipeline (Some id) None dev w = (inr tt, w)).
  { intros id dev Hid.
    unfold _load_pipeline, bind, config_attr, get_self, bind, ret.
    rewrite Hc, Hp, Hid. simpl. rewrite string_eqb_same. reflexivity. }
  assert (Hmp : forall path dev, model_path c = Some path ->
                  _load_pipeline None (Some path) dev w = (inr tt, w)).
  { intros path dev Hpath.
    unfold _load_pipeline, bind, config_attr, get_self, bind, ret.
    rewrite Hc, Hp, Hpath. simpl. rewrite path_eqb_same. reflexivity. }
  split; [ exact Hhf | split; [ exact Hmp | ] ].
  intros new [(id & Hn & Hr & Hnone) | (path & Hn & Hr & Hnone)];
    unfold update_pipeline; rewrite Hn, Hnone.
  - rewrite (bind_value _ (Hhf id _ Hr)).
    unfold set_model_config, bind, get_self, put_self. rewrite Hp. reflexivity.
  - rewrite (bind_value _ (Hmp path _ Hr)).
    unfold set_model_config, bind, get_self, put_self. rewrite Hp. reflexivity.
Qed.

End GuardFacts.

(** ** The inpainting loop *)

Section InpaintingFacts.

Variable E : Externals.

Local Open Scope py_scope.

Implicit Types (config : StableDiffusionInputConfig E) (w : World E).

Lemma log_run (ev : Event E) w :
  log ev w = (inr tt, mkWorld (self w) (ext w) (trace w ++ [ev])).
Proof. reflexivity. Qed.

(** The list comprehension over the generated images composites each of
    them, in order, and logs one call per image. *)
Lemma postprocess_all_run config (outs fin : list Image) w :
  composited config outs fin ->
  comprehension (postprocess_one config) outs w
  = (inr fin,
     mkWorld (self w) (ext w) (trace w ++ map (postprocess_call config) outs)).
Proof.
  intros H; revert w; induction H as [| o f outs fin Hof _ IH]; intros w.
  - simpl. rewrite app_nil_r. destruct w; reflexivity.
  - simpl. unfold postprocess_one at 1. unfold bind at 1 2, log, call.
    rewrite Hof. unfold bind. rewrite IH. simpl.
    rewrite <- app_assoc. reflexivity.
Qed.

Lemma postprocess_all_inv config (outs fin : list Image) w w' :
  comprehension (postprocess_one config) outs w = (inr fin, w') ->
  composited config outs fin /\
  w' = mkWorld (self w) (ext w)
         (trace w ++ map (postprocess_call config) outs).
Proof.
  revert fin w w'; induction outs as [| o outs IH]; intros fin w w' H;
    simpl in H.
  - injection H as <- <-. split; [ constructor | ].
    rewrite app_nil_r. destruct w; reflexivity.
  - apply bind_returns in H as (f & w1 & Hone & H).
    apply bind_returns in H as (fs & w2 & Hrest & H).
    injection H as <- <-.
    unfold postprocess_one in Hone.
    apply bind_returns in Hone as ([] & w0 & Hlog & Hcall).
    injection Hlog as <-. unfold call in Hcall. injection Hcall as Hof <-.
    apply IH in Hrest as [Hall ->]. simpl.
    split; [ constructor; assumption | ].
    rewrite <- app_assoc. reflexivity.
Qed.

Lemma call_value (A : Type) (r : PyExn + A) (a : A) w :
  r = inr a -> call r w = (inr a, w).
Proof. intros ->; reflexivity. Qed.

Lemma config_attr_run (attr : string) (c : StableDiffusionModelConfig E) w :
  model_config (self w) = Some c -> config_attr attr w = (inr c, w).
Proof.
  intros H; unfold config_attr, bind, get_self; rewrite H; reflexivity.
Qed.

Lemma pipe_callable_run (p : Pipeline E) w :
  pipe (self w) = Some p -> pipe_callable w = (inr p, w).
Proof.
  intros H; unfold pipe_callable, bind, get_self; rewrite H; reflexivity.
Qed.

Lemma outside_run (A : Type) (f : Ext E -> (PyExn + A) * Ext E)
  (r : PyExn + A) (x' : Ext E) w :
  f (ext w) = (r, x') -> outside f w = (r, mkWorld (self w) x' (trace w)).
Proof. intros H; unfold outside; rewrite H; reflexivity. Qed.

(** One turn of the loop, forwards: what it does when every step it
    takes succeeds. *)
Lemma inpainting_item_run config (images : list Image) w
  (p : Pipeline E) (c : StableDiffusionModelConfig E) (v : PyVal)
  (region : PyVal * PyVal) (outs fin : list Image) (x' : Ext E) :
  pipe (self w) = Some p ->
  model_config (self w) = Some c ->
  preprocess_inputs E (image config) (mask_image config)
    (preprocess_type config) (width config) (height config) = inr v ->
  unpack2 v = inr region ->
  pipe_call p (inpaint_args config region (generator c)) (ext w)
  = (inr outs, x') ->
  composited config outs fin ->
  inpainting_item config images w
  = (inr (images ++ fin)%list,
     mkWorld (self w) x'
       (trace w ++ item_calls config region (generator c) outs)).
Proof.
  intros Hp Hc Hv Hu Hg Hfin.
  unfold inpainting_item.
  rewrite (bind_value _ (log_run _ w)).
  rewrite (bind_value _ (call_value _ Hv)).
  rewrite (bind_value _ (call_value _ Hu)).
  erewrite bind_value; [ | apply config_attr_run; exact Hc ].
  erewrite bind_value; [ | apply pipe_callable_run; exact Hp ].
  rewrite (bind_value _ (log_run _ _)).
  erewrite bind_value; [ | apply outside_run; exact Hg ].
  rewrite (bind_value _ (postprocess_all_run _ Hfin)).
  unfold ret. simpl. unfold item_calls.
  repeat rewrite <- app_assoc. reflexivity.
Qed.

(** One turn of the loop, backwards: what must have happened when it
    returned. *)
Lemma inpainting_item_inv config (images r : list Image) w w' :
  inpainting_item config images w = (inr r, w') ->
  exists it : ItemRun E,
    item_of_loop config (self w) it /\
    r = (images ++ finals it)%list /\
    self w' = self w /\
    trace w' = (trace w ++ item_calls config (prepared it)
                             (used_generator it) (generated it))%list.
Proof.
  unfold inpainting_item. intros H.
  apply bind_returns in H as ([] & w1 & H1 & H). injection H1 as <-.
  apply bind_returns in H as (v & w2 & H2 & H).
  unfold call in H2. injection H2 as Hv <-.
  apply bind_returns in H as (region & w3 & H3 & H).
  unfold call in H3. injection H3 as Hu <-.
  apply bind_returns in H as (c & w4 & H4 & H).
  unfold config_attr, bind, get_self in H4. simpl in H4.
  destruct (model_config (self w)) as [c0 |] eqn:Hc; [ | discriminate ].
  injection H4 as <- <-.
  apply bind_returns in H as (p & w5 & H5 & H).
  unfold pipe_callable, bind, get_self in H5. simpl in H5.
  destruct (pipe (self w)) as [p0 |] eqn:Hp; [ | discriminate ].
  injection H5 as <- <-.
  apply bind_returns in H as ([] & w6 & H6 & H). injection H6 as <-.
  apply bind_returns in H as (outs & w7 & H7 & H).
  unfold outside in H7. simpl in H7.
  destruct (pipe_call _ _ _) as [ro x'] eqn:Hg in H7.
  injection H7 as -> <-.
  apply bind_returns in H as (fin & w8 & H8 & H).
  apply postprocess_all_inv in H8 as [Hfin ->].
  injection H as <- <-.
  exists (mkItemRun region (generator c0) outs fin). simpl.
  split; [ | split; [ reflexivity | split; [ reflexivity | ] ] ].
  - split; [ exists v; split; assumption | ].
    split; [ exists c0; split; [ assumption | reflexivity ] | ].
    split; [ | assumption ].
    exists p0, (ext w), x'. split; [ assumption | exact Hg ].
  - unfold item_calls. repeat rewrite <- app_assoc. reflexivity.
Qed.

(** The loop, backwards: a loop over [range(n)] that returned has made
    [n] turns on an unchanged instance, and its result and its calls are
    those of the turns, in order. *)
Lemma inpainting_loop_inv config (n : nat) (acc r : list Image) w w' :
  for_range n (inpainting_item config) acc w = (inr r, w') ->
  exists items : list (ItemRun E),
    List.length items = n /\
    Forall (item_of_loop config (self w)) items /\
    r = (acc ++ List.concat (map (@finals E) items))%list /\
    self w' = self w /\
    trace w' = (trace w ++ loop_calls config items)%list.
Proof.
  revert acc w; induction n as [| n IH]; intros acc w H; simpl in H.
  - injection H as <- <-. exists []. simpl.
    repeat split; try constructor; rewrite app_nil_r; reflexivity.
  - apply bind_returns in H as (acc1 & w1 & Hitem & Hrest).
    apply inpainting_item_inv in Hitem as (it & Hit & -> & Hs1 & Ht1).
    apply IH in Hrest as (items & Hlen & Hall & -> & Hs & Ht).
    exists (it :: items). simpl.
    split; [ congruence | ].
    split; [ constructor; [ assumption | rewrite <- Hs1; assumption ] | ].
    split; [ rewrite <- app_assoc; reflexivity | ].
    split; [ congruence | ].
    rewrite Ht, Ht1. unfold loop_calls. simpl.
    rewrite <- app_assoc. reflexivity.
Qed.

Lemma save_if_requested_inv (images : list Image) (d : PyVal) w w' :
  save_if_requested images d w = (inr tt, w') ->
  self w' = self w /\ trace w' = (trace w ++ save_calls E images d)%list.
Proof.
  unfold save_if_requested, save_calls. destruct (truthy d); intros H.
  - apply bind_returns in H as ([] & w1 & Hlog & H). injection Hlog as <-.
    unfold outside in H. simpl in H.
    destruct (save_images _ _ _) as [ro x'] in H. injection H as _ <-.
    split; reflexivity.
  - injection H as <-. rewrite app_nil_r. split; reflexivity.
Qed.

(** C1: a run of the inpainting task that returns has, after making sure
    the model is loaded, made one turn per batch item, and in every turn
    it (1) called [preprocess_inputs] on the configured image and mask
    with the configured preprocess policy and target width and height,
    (2) called the pipeline on the pair that call returned, and (3) called
    [postprocess_outputs] on each generated image, in order, with the
    original image, the original mask and the configured policies.  The
    images returned are the composited images of the turns, in the order
    of the turns; the call log shows the calls in this order. *)
Theorem inpainting_prepares_generates_composites config
  (output_dir : PyVal) w (images : list Image) w' :
  _generate_images_inpainting config output_dir w = (inr images, w') ->
  exists (w0 : World E) (items : list (ItemRun E)),
    _load_model_hard_set w = (inr tt, w0) /\
    List.length items = Z.to_nat (num_batches config) /\
    Forall (item_of_loop config (self w0)) items /\
    images = List.concat (map (@finals E) items) /\
    self w' = self w0 /\
    trace w' = (trace w0 ++ loop_calls config items
                ++ save_calls E images (pathify_strings E output_dir))%list.
Proof.
  unfold _generate_images_inpainting. intros H.
  apply bind_returns in H as ([] & w0 & Hload & H).
  apply bind_returns in H as (imgs & w1 & Hloop & H).
  apply bind_returns in H as ([] & w2 & Hsave & H).
  injection H as <- <-.
  apply inpainting_loop_inv in Hloop as (items & Hlen & Hall & Himgs & Hs & Ht).
  apply save_if_requested_inv in Hsave as [Hs2 Ht2].
  exists w0, items. simpl in Himgs.
  repeat split; try assumption.
  - congruence.
  - rewrite Ht2, Ht, <- app_assoc. reflexivity.
Qed.

(** A turn whose generation call raises ends there: the exception leaves
    the turn, after the preparation and before any compositing. *)
Lemma inpainting_item_generation_fails config (images : list Image) w
  (p : Pipeline E) (c : StableDiffusionModelConfig E) (v : PyVal)
  (region : PyVal * PyVal) (e : PyExn) (x' : Ext E) :
  pipe (self w) = Some p ->
  model_config (self w) = Some c ->
  preprocess_inputs E (image config) (mask_image config)
    (preprocess_type config) (width config) (height config) = inr v ->
  unpack2 v = inr region ->
  pipe_call p (inpaint_args config region (generator c)) (ext w)
  = (inl e, x') ->
  inpainting_item config images w
  = (inl e,
     mkWorld (self w) x'
       (trace w ++ item_calls config region (generator c) [])).
Proof.
  intros Hp Hc Hv Hu Hg.
  unfold inpainting_item.
  rewrite (bind_value _ (log_run _ w)).
  rewrite (bind_value _ (call_value _ Hv)).
  rewrite (bind_value _ (call_value _ Hu)).
  erewrite bind_value; [ | apply config_attr_run; exact Hc ].
  erewrite bind_value; [ | apply pipe_callable_run; exact Hp ].
  rewrite (bind_value _ (log_run _ _)).
  erewrite bind_raises; [ | apply outside_run; exact Hg ].
  simpl. unfold item_calls. simpl.
  rewrite <- app_assoc. reflexivity.
Qed.

(** C2 (as the code has it): a failure of the generation call is not
    kept per item.  If the first [k] turns of the loop completed and the
    generation call of the next turn raises [e], the whole call raises
    [e]: no image is returned, not even those of the [k] completed turns;
    the call log ends with the failed generation call, so the failed item
    is not composited, no later item is prepared or generated, and
    nothing is saved. *)
Theorem failed_generation_aborts_the_batch config (output_dir : PyVal)
  w (w0 wk : World E) (k : nat) (done : list Image)
  (p : Pipeline E) (c : StableDiffusionModelConfig E) (v : PyVal)
  (region : PyVal * PyVal) (e : PyExn) (x' : Ext E) :
  _load_model_hard_set w = (inr tt, w0) ->
  (k < Z.to_nat (num_batches config))%nat ->
  for_range k (inpainting_item config) [] w0 = (inr done, wk) ->
  pipe (self wk) = Some p ->
  model_config (self wk) = Some c ->
  preprocess_inputs E (image config) (mask_image config)
    (preprocess_type config) (width config) (height config) = inr v ->
  unpack2 v = inr region ->
  pipe_call p (inpaint_args config region (generator c)) (ext wk)
  = (inl e, x') ->
  _generate_images_inpainting config output_dir w
  = (inl e,
     mkWorld (self wk) x'
       (trace wk ++
        [EvPreprocess E (image config) (mask_image config)
           (preprocess_type config) (width config) (height config);
         EvGenerate (inpaint_args config region (generator c))])).
Proof.
  intros Hload Hk Hdone Hp Hc Hv Hu Hg.
  unfold _generate_images_inpainting.
  rewrite (bind_value _ Hload).
  apply bind_raises.
  eapply for_range_raises; [ exact Hk | exact Hdone | ].
  apply (inpainting_item_generation_fails done Hp Hc Hv Hu Hg).
Qed.

Lemma unpack_items_two (l : list PyVal) (a b : PyVal) :
  unpack_items l = inr (a, b) -> l = [a; b].
Proof.
  destruct l as [| x [| y [| z l]]]; simpl; intros H;
    try discriminate.
  injection H as <- <-; reflexivity.
Qed.

(** One turn of the loop, backwards and in full: the pair prepared, the
    pipeline and configuration in use, what the pipeline returned on that
    pair in the outside world as it was, and what compositing made of
    it. *)
Lemma inpainting_item_inv_exact config (images r : list Image) w w' :
  inpainting_item config images w = (inr r, w') ->
  exists (v : PyVal) (region : PyVal * PyVal) (p : Pipeline E)
         (c : StableDiffusionModelConfig E) (outs fin : list Image),
    preprocess_inputs E (image config) (mask_image config)
      (preprocess_type config) (width config) (height config) = inr v /\
    unpack2 v = inr region /\
    pipe (self w) = Some p /\
    model_config (self w) = Some c /\
    pipe_call p (inpaint_args config region (generator c)) (ext w)
    = (inr outs, ext w') /\
    composited config outs fin /\
    r = (images ++ fin)%list /\
    self w' = self w /\
    trace w'
    = (trace w ++ item_calls config region (generator c) outs)%list.
Proof.
  unfold inpainting_item. intros H.
  apply bind_returns in H as ([] & w1 & H1 & H). injection H1 as <-.
  apply bind_returns in H as (v & w2 & H2 & H).
  unfold call in H2. injection H2 as Hv <-.
  apply bind_returns in H as (region & w3 & H3 & H).
  unfold call in H3. injection H3 as Hu <-.
  apply bind_returns in H as (c & w4 & H4 & H).
  unfold config_attr, bind, get_self in H4. simpl in H4.
  destruct (model_config (self w)) as [c0 |] eqn:Hc; [ | discriminate ].
  injection H4 as <- <-.
  apply bind_returns in H as (p & w5 & H5 & H).
  unfold pipe_callable, bind, get_self in H5. simpl in H5.
  destruct (pipe (self w)) as [p0 |] eqn:Hp; [ | discriminate ].
  injection H5 as <- <-.
  apply bind_returns in H as ([] & w6 & H6 & H). injection H6 as <-.
  apply bind_returns in H as (outs & w7 & H7 & H).
  unfold outside in H7. simpl in H7.
  destruct (pipe_call _ _ _) as [ro x'] eqn:Hg in H7.
  injection H7 as -> <-.
  apply bind_returns in H as (fin & w8 & H8 & H).
  apply postprocess_all_inv in H8 as [Hfin ->].
  injection H as <- <-.
  exists v, region, p0, c0, outs, fin. simpl.
  repeat split; try assumption; try reflexivity.
  unfold item_calls. repeat rewrite <- app_assoc. reflexivity.
Qed.

(** C4 (as the code has it): what [preprocess_inputs] returns is
    unpacked as a pair, the region image and the region mask, so a tuple
    or list it returns has exactly two components and no third one for a
    region mapping.  The pair goes to the pipeline call and nowhere else:
    the images [outs] composited are the ones the loaded pipeline
    returned on that pair.  [postprocess_outputs] is called once per
    generated image, in order, with the original image, the original
    mask, the generated image, and the preprocess policy, postprocess
    policy and blending type of the configuration, and the turn returns
    what these calls return: the compositor is told the preprocess
    policy, and receives nothing that [preprocess_inputs] returned. *)
Theorem prepare_returns_a_pair_not_a_mapping config
  (images r : list Image) w w' :
  inpainting_item config images w = (inr r, w') ->
  exists (v region_image region_mask : PyVal) (p : Pipeline E)
         (c : StableDiffusionModelConfig E) (outs fin : list Image),
    preprocess_inputs E (image config) (mask_image config)
      (preprocess_type config) (width config) (height config) = inr v /\
    unpack2 v = inr (region_image, region_mask) /\
    (forall l, v = VTuple l \/ v = VList l ->
               l = [region_image; region_mask]) /\
    pipe (self w) = Some p /\
    model_config (self w) = Some c /\
    pipe_call p
      (InpaintArgs (params config) region_image region_mask
         (height config) (width config) (generator c))
      (ext w)
    = (inr outs, ext w') /\
    Forall2
      (fun o f =>
         postprocess_outputs E (image config) (mask_image config) o
           (preprocess_type config) (postprocess_type config)
           (blending_type config) = inr f)
      outs fin /\
    r = (images ++ fin)%list /\
    trace w'
    = (trace w ++
       EvPreprocess E (image config) (mask_image config)
         (preprocess_type config) (width config) (height config)
       :: EvGenerate
            (InpaintArgs (params config) region_image region_mask
               (height config) (width config) (generator c))
       :: map (fun o =>
                 EvPostprocess E (image config) (mask_image config) o
                   (preprocess_type config) (postprocess_type config)
                   (blending_type config))
            outs)%list.
Proof.
  intros H.
  apply inpainting_item_inv_exact in H
    as (v & [ri rm] & p & c & outs & fin
        & Hv & Hu & Hp & Hc & Hg & Hfin & Hr & _ & Ht).
  exists v, ri, rm, p, c, outs, fin.
  repeat (split; [ assumption | ]).
  split; [ | repeat split; assumption ].
  intros l [-> | ->]; simpl in Hu; apply unpack_items_two; exact Hu.
Qed.

(** C5 (as the code has it): the images the pipeline returns are not
    checked against the requested width and height, and are neither
    cropped nor padded.  Whatever images [outs] the generation call
    returns, of whatever size, each is passed as it is to
    [postprocess_outputs], and the turn returns what those calls return;
    the turn raises no error of its own about the size. *)
Theorem generated_size_is_not_checked config (images : list Image) w
  (p : Pipeline E) (c : StableDiffusionModelConfig E) (v : PyVal)
  (region : PyVal * PyVal) (outs fin : list Image) (x' : Ext E) :
  pipe (self w) = Some p ->
  model_config (self w) = Some c ->
  preprocess_inputs E (image config) (mask_image config)
    (preprocess_type config) (width config) (height config) = inr v ->
  unpack2 v = inr region ->
  pipe_call p (inpaint_args config region (generator c)) (ext w)
  = (inr outs, x') ->
  composited config outs fin ->
  inpainting_item config images w
  = (inr (images ++ fin)%list,
     mkWorld (self w) x'
       (trace w ++
        EvPreprocess E (image config) (mask_image config)
          (preprocess_type config) (width config) (height config)
        :: EvGenerate (inpaint_args config region (generator c))
        :: map (fun o =>
                  EvPostprocess E (image config) (mask_image config) o
                    (preprocess_type config) (postprocess_type config)
                    (blending_type config))
             outs)).
Proof.
  intros Hp Hc Hv Hu Hg Hfin.
  exact (inpainting_item_run images Hp Hc Hv Hu Hg Hfin).
Qed.

End InpaintingFacts.

(** ** The region core *)

Module CoreFacts.

Import Core.

Lemma nth_error_zip_row (A B C : Type) (f : A -> B -> C) (r : list A)
  (s : list B) (i : nat) (c : C) :
  nth_error (zip_row f r s) i = Some c ->
  exists a b, nth_error r i = Some a /\ nth_error s i = Some b /\ c = f a b.
Proof.
  revert s i; induction r as [| a r IH]; intros [| b s] i H;
    try (destruct i; discriminate).
  destruct i as [| i]; simpl in H.
  - injection H as <-. exists a, b. repeat split.
  - apply IH in H. exact H.
Qed.

(** A cell of a cell-wise combination is the combination of the cells at
    the same place. *)
Lemma at_xy_zip_grid (A B C : Type) (f : A -> B -> C) (g : list (list A))
  (h : list (list B)) (x y : nat) (c : C) :
  at_xy (zip_grid f g h) x y = Some c ->
  exists a b, at_xy g x y = Some a /\ at_xy h x y = Some b /\ c = f a b.
Proof.
  unfold at_xy, zip_grid. intros H.
  destruct (nth_error (zip_row (zip_row f) g h) y) as [row |] eqn:Hrow;
    [ | discriminate ].
  apply nth_error_zip_row in Hrow as (r & s & Hr & Hs & ->).
  rewrite Hr, Hs. apply nth_error_zip_row. exact H.
Qed.

Section Policies.

Variable threshold : Q.
Variable max_value : Q.
Variable resize_image : Image -> Z -> Z -> Image.
Variable gaussian_kernel : Mask -> Mask.
Variable smooth_kernel : Mask -> Mask.
Variable smoother_kernel : Mask -> Mask.
Variable poisson_clone : Image -> Mask -> Image -> Image.

Lemma unmarked_row_has_no_coords (r : list Q) (i : nat) :
  Forall (fun v => (v <= threshold)%Q) r ->
  filter (fun xv : nat * Q => marked threshold (snd xv)) (indexed_from i r)
  = [].
Proof.
  intros H; revert i; induction H as [| v r Hv _ IH]; intros i; simpl.
  - reflexivity.
  - unfold marked at 1. apply Qle_bool_iff in Hv. rewrite Hv. simpl.
    apply IH.
Qed.

Lemma unmarked_rows_have_no_coords (m : Mask) (j : nat) :
  unmarked_mask threshold m ->
  List.concat
    (map (fun yr : nat * list Q =>
            map (fun xv : nat * Q => (fst xv, fst yr))
              (filter (fun xv : nat * Q => marked threshold (snd xv))
                 (indexed_from 0 (snd yr))))
       (indexed_from j m)) = [].
Proof.
  intros H; revert j; induction H as [| r m Hr _ IH]; intros j; simpl.
  - reflexivity.
  - rewrite (unmarked_row_has_no_coords _ Hr). simpl. apply IH.
Qed.

Lemma unmarked_mask_has_no_coords (m : Mask) :
  unmarked_mask threshold m -> marked_coords threshold m = [].
Proof. apply unmarked_rows_have_no_coords. Qed.

(** Conversely a marked cell makes the scan succeed: the error is not
    the only outcome. *)
Lemma marked_cell_gives_a_box (m : Mask) (c : nat * nat)
  (rest : list (nat * nat)) :
  marked_coords threshold m = c :: rest ->
  exists b, compute_bounding_box threshold m = inr b.
Proof.
  intros H; unfold compute_bounding_box; rewrite H.
  destruct c as [x y]; eexists; reflexivity.
Qed.

(** A mask of zeros has no marked cell under a threshold that is not
    negative. *)
Lemma zero_mask_is_unmarked (m : Mask) :
  (0 <= threshold)%Q ->
  Forall (Forall (fun v => (v == 0)%Q)) m ->
  unmarked_mask threshold m.
Proof.
  intros Ht H. unfold unmarked_mask.
  eapply Forall_impl; [ | exact H ].
  intros r Hr. eapply Forall_impl; [ | exact Hr ].
  intros v Hv. simpl in Hv. rewrite Hv. exact Ht.
Qed.

(** C7: [compute_bounding_box] fails with the empty-region geometry
    error on every mask in which no cell exceeds the threshold; and
    [composite] under DIRECT_REPLACE, given such a mask (an all-zero mask
    in particular), ends in a geometry error whatever the other
    arguments are: it never returns an image, changed or unchanged. *)
Theorem empty_mask_is_a_geometry_error (m : Mask) :
  unmarked_mask threshold m ->
  compute_bounding_box threshold m
  = inl (GeometryError "empty region: no mask pixel above threshold") /\
  forall (original model_output : Image) (mapping : RegionMapping)
         (variant : Blend.t),
  exists msg,
    composite threshold max_value resize_image gaussian_kernel smooth_kernel
      smoother_kernel poisson_clone original m model_output mapping
      Post.DIRECT_REPLACE variant
    = inl (GeometryError msg).
Proof.
  intros H.
  assert (Hbox : compute_bounding_box threshold m
                 = inl (GeometryError
                          "empty region: no mask pixel above threshold")).
  { unfold compute_bounding_box.
    rewrite (unmarked_mask_has_no_coords H). reflexivity. }
  split; [ exact Hbox | ].
  intros original model_output mapping variant. unfold composite.
  destruct (negb (congruent original m)); [ eexists; reflexivity | ].
  destruct (negb (box_within _ _ _)); [ eexists; reflexivity | ].
  rewrite Hbox. eexists; reflexivity.
Qed.

Lemma mix_at_zero (mv o p : Q) :
  ~ (max_value == 0)%Q -> (mv == 0)%Q -> (mix max_value mv o p == o)%Q.
Proof. intros Hmax H. unfold mix. rewrite H. field. exact Hmax. Qed.

Lemma mix_at_max (mv o p : Q) :
  ~ (max_value == 0)%Q -> (mv == max_value)%Q ->
  (mix max_value mv o p == p)%Q.
Proof. intros Hmax H. unfold mix. rewrite H. field. exact Hmax. Qed.

Lemma weight_in_unit_interval (mv : Q) :
  (0 < max_value)%Q -> (0 <= mv)%Q -> (mv <= max_value)%Q ->
  (0 <= mv / max_value)%Q /\ (mv / max_value <= 1)%Q.
Proof.
  intros Hmax H0 H1. split.
  - apply Qle_shift_div_l; [ exact Hmax | ]. rewrite Qmult_0_l. exact H0.
  - apply Qle_shift_div_r; [ exact Hmax | ]. rewrite Qmult_1_l. exact H1.
Qed.

(** C6: under BLEND with the LINEAR variant, every pixel [f] of the image
    [composite] returns is made from the pixels at the same place of the
    original [o], the mask [mv] and the placed patch [p]: each channel is
    [w*p + (1-w)*o] with [w = mv/max], a weight in [0,1] when [mv] lies
    in [0,max]; where the mask is 0 the pixel is the original's, where
    the mask is [max] it is the patch's. *)
Theorem linear_blend_interpolates (original model_output final : Image)
  (m : Mask) (mapping : RegionMapping) (x y : nat) (f : Pixel) :
  (0 < max_value)%Q ->
  composite threshold max_value resize_image gaussian_kernel smooth_kernel
    smoother_kernel poisson_clone original m model_output mapping
    Post.BLEND Blend.LINEAR_BLENDING = inr final ->
  at_xy final x y = Some f ->
  exists (o p : Pixel) (mv : Q),
    at_xy original x y = Some o /\
    at_xy m x y = Some mv /\
    at_xy (placed_patch resize_image original model_output mapping) x y
    = Some p /\
    ((mv == 0)%Q -> same_pixel f o) /\
    ((mv == max_value)%Q -> same_pixel f p) /\
    (let w := (mv / max_value)%Q in
     (red f == w * red p + (1 - w) * red o)%Q /\
     (green f == w * green p + (1 - w) * green o)%Q /\
     (blue f == w * blue p + (1 - w) * blue o)%Q /\
     ((0 <= mv)%Q -> (mv <= max_value)%Q -> (0 <= w)%Q /\ (w <= 1)%Q)).
Proof.
  intros Hmax Hrun Hf.
  assert (Hne : ~ (max_value == 0)%Q).
  { intros Heq. rewrite Heq in Hmax. exact (Qlt_irrefl 0 Hmax). }
  unfold composite in Hrun.
  destruct (negb (congruent original m)); [ discriminate | ].
  destruct (negb (box_within _ _ _)); [ discriminate | ].
  destruct (compute_bounding_box threshold m); [ discriminate | ].
  simpl in Hrun. injection Hrun as <-.
  unfold combine_with in Hf.
  apply at_xy_zip_grid in Hf as (o & mp & Ho & Hmp & ->).
  apply at_xy_zip_grid in Hmp as (mv & p & Hmv & Hp & ->).
  exists o, p, mv.
  destruct o as [[o1 o2] o3], p as [[p1 p2] p3].
  repeat (split; [ assumption | ]).
  unfold same_pixel, linear_pixel, red, green, blue; simpl.
  split; [ intros Hz; repeat split; apply mix_at_zero; assumption | ].
  split; [ intros Hz; repeat split; apply mix_at_max; assumption | ].
  repeat (split; [ reflexivity | ]).
  intros H0 H1. apply weight_in_unit_interval; assumption.
Qed.

End Policies.

End CoreFacts.

(** ** The properties at work on the concrete setting *)

Module ScenarioFacts.

Import Scenario.

Local Open Scope py_scope.

Lemma inpainting_prepares_generates_composites_witness :
  exists (images : list Image) (w' : World E_steady),
    run_inpainting (E:=E_steady) "a cat" "inpainting-model" 7 0%nat 2
    = (inr images, w') /\
    exists (w0 : World E_steady) (items : list (ItemRun E_steady)),
      _load_model_hard_set (loaded (E:=E_steady) "inpainting-model" 7 0%nat)
      = (inr tt, w0) /\
      List.length items = Z.to_nat (num_batches (job (E:=E_steady) "a cat" 2))
      /\
      Forall (item_of_loop (job (E:=E_steady) "a cat" 2) (self w0)) items /\
      images = List.concat (map (@finals E_steady) items) /\
      self w' = self w0 /\
      trace w'
      = (trace w0 ++ loop_calls (job (E:=E_steady) "a cat" 2) items
         ++ save_calls E_steady images (pathify_strings E_steady out_dir))%list.
Proof.
  eexists; eexists; split.
  - vm_compute; reflexivity.
  - apply (@inpainting_prepares_generates_composites E_steady).
    vm_compute; reflexivity.
Defined.

(** C2, on a batch of three whose second generation call fails: the call
    as a whole raises the collaborator's exception, so the first item's
    image is not returned; the log holds two generation calls and one
    compositing call, so the third item was never started. *)
Lemma batch_of_three_is_lost_when_item_two_fails :
  fst (run_inpainting (E:=E_second_fails) "a cat" "inpainting-model" 7 0%nat 3)
  = inl (ExternalError "CUDA out of memory") /\
  List.length
    (filter (@is_generate E_second_fails)
       (trace (snd (run_inpainting (E:=E_second_fails) "a cat"
                      "inpainting-model" 7 0%nat 3)))) = 2%nat /\
  List.length
    (filter (@is_postprocess E_second_fails)
       (trace (snd (run_inpainting (E:=E_second_fails) "a cat"
                      "inpainting-model" 7 0%nat 3)))) = 1%nat.
Proof. vm_compute. repeat split. Qed.

Lemma failed_generation_aborts_the_batch_witness :
  exists w' : World E_second_fails,
    run_inpainting (E:=E_second_fails) "a cat" "inpainting-model" 7 0%nat 3
    = (inl (ExternalError "CUDA out of memory"), w').
Proof.
  eexists. unfold run_inpainting.
  eapply (@failed_generation_aborts_the_batch E_second_fails
            (job (E:=E_second_fails) "a cat" 3) out_dir
            (loaded (E:=E_second_fails) "inpainting-model" 7 0%nat)
            (loaded (E:=E_second_fails) "inpainting-model" 7 0%nat)
            _ 1%nat _ "inpainting-model"
            (inpainting_model (E:=E_second_fails) 7) prepared_pair
            (VImage region_image, VImage region_mask)).
  - reflexivity.
  - vm_compute; lia.
  - vm_compute; reflexivity.
  - reflexivity.
  - reflexivity.
  - reflexivity.
  - reflexivity.
  - reflexivity.
Defined.

(** C4, on a preparation that returns a triple (region image, region
    mask, region mapping): the tuple assignment raises [ValueError], and
    neither the pipeline nor [postprocess_outputs] is ever called. *)
Lemma a_triple_from_prepare_is_rejected :
  preprocess_inputs E_triple original original_mask Pre.CROP_AND_RESIZE 2 2
  = inr prepared_triple /\
  fst (run_inpainting (E:=E_triple) "a cat" "inpainting-model" 7 0%nat 1)
  = inl (ValueError "too many values to unpack (expected 2)") /\
  filter (@is_generate E_triple)
    (trace (snd (run_inpainting (E:=E_triple) "a cat" "inpainting-model"
                   7 0%nat 1))) = [] /\
  filter (@is_postprocess E_triple)
    (trace (snd (run_inpainting (E:=E_triple) "a cat" "inpainting-model"
                   7 0%nat 1))) = [].
Proof. vm_compute. repeat split. Qed.

Lemma prepare_returns_a_pair_not_a_mapping_witness :
  exists (r : list Image) (w' : World E_steady),
    inpainting_item (job (E:=E_steady) "a cat" 1) []
      (loaded (E:=E_steady) "inpainting-model" 7 0%nat) = (inr r, w') /\
    exists (v region_image region_mask : PyVal) (p : Pipeline E_steady)
           (c : StableDiffusionModelConfig E_steady)
           (outs fin : list Image),
      preprocess_inputs E_steady original original_mask Pre.CROP_AND_RESIZE
        2 2 = inr v /\
      unpack2 v = inr (region_image, region_mask) /\
      (forall l, v = VTuple l \/ v = VList l ->
                 l = [region_image; region_mask]) /\
      pipe (self (loaded (E:=E_steady) "inpainting-model" 7 0%nat))
      = Some p /\
      model_config (self (loaded (E:=E_steady) "inpainting-model" 7 0%nat))
      = Some c /\
      pipe_call (e:=E_steady) p
        (InpaintArgs "a cat" region_image region_mask 2 2 (generator c))
        (ext (loaded (E:=E_steady) "inpainting-model" 7 0%nat))
      = (inr outs, ext w') /\
      Forall2
        (fun o f =>
           postprocess_outputs E_steady original original_mask o
             Pre.CROP_AND_RESIZE Post.DIRECT_REPLACE Blend.NONE = inr f)
        outs fin /\
      r = ([] ++ fin)%list /\
      trace w'
      = (trace (loaded (E:=E_steady) "inpainting-model" 7 0%nat) ++
         EvPreprocess E_steady original original_mask Pre.CROP_AND_RESIZE 2 2
         :: EvGenerate (E:=E_steady)
              (InpaintArgs "a cat" region_image region_mask 2 2
                 (generator c))
         :: map (fun o =>
                   EvPostprocess E_steady original original_mask o
                     Pre.CROP_AND_RESIZE Post.DIRECT_REPLACE Blend.NONE)
              outs)%list.
Proof.
  eexists; eexists; split.
  - vm_compute; reflexivity.
  - apply (@prepare_returns_a_pair_not_a_mapping E_steady
             (job (E:=E_steady) "a cat" 1) [] _
             (loaded (E:=E_steady) "inpainting-model" 7 0%nat)).
    vm_compute; reflexivity.
Defined.

(** C5, on a pipeline that returns a 3x1 image where 2x2 was requested:
    no exception is raised; the image reaches [postprocess_outputs] as it
    is, and the call returns what that call made of it. *)
Lemma a_misshapen_output_is_composited :
  (width (job (E:=E_wrong_size) "a cat" 1),
   height (job (E:=E_wrong_size) "a cat" 1)) = (2, 2) /\
  pipe_call (e:=E_wrong_size) "inpainting-model"
    (InpaintArgs "a cat" (VImage region_image) (VImage region_mask) 2 2
       (Some 7)) 0%nat = (inr [misshapen], 1%nat) /\
  size misshapen = (3, 1) /\
  fst (run_inpainting (E:=E_wrong_size) "a cat" "inpainting-model" 7 0%nat 1)
  = inr [mkImage (4, 4) [7; 7; 7]] /\
  filter (@is_postprocess E_wrong_size)
    (trace (snd (run_inpainting (E:=E_wrong_size) "a cat" "inpainting-model"
                   7 0%nat 1)))
  = [EvPostprocess E_wrong_size original original_mask misshapen
       Pre.CROP_AND_RESIZE Post.DIRECT_REPLACE Blend.NONE].
Proof. vm_compute. repeat split. Qed.

Lemma generated_size_is_not_checked_witness :
  inpainting_item (job (E:=E_wrong_size) "a cat" 1) []
    (loaded (E:=E_wrong_size) "inpainting-model" 7 0%nat)
  = (inr [mkImage (4, 4) [7; 7; 7]],
     mkWorld
       (self (loaded (E:=E_wrong_size) "inpainting-model" 7 0%nat)) 1%nat
       [EvPreprocess E_wrong_size original original_mask Pre.CROP_AND_RESIZE
          2 2;
        EvGenerate (E:=E_wrong_size)
          (InpaintArgs "a cat" (VImage region_image) (VImage region_mask)
             2 2 (Some 7));
        EvPostprocess E_wrong_size original original_mask misshapen
          Pre.CROP_AND_RESIZE Post.DIRECT_REPLACE Blend.NONE]).
Proof.
  apply (@generated_size_is_not_checked E_wrong_size
           (job (E:=E_wrong_size) "a cat" 1) []
           (loaded (E:=E_wrong_size) "inpainting-model" 7 0%nat)
           "inpainting-model" (inpainting_model (E:=E_wrong_size) 7)
           prepared_pair (VImage region_image, VImage region_mask)
           [misshapen] [mkImage (4, 4) [7; 7; 7]] 1%nat);
    try reflexivity.
  repeat constructor.
Defined.

Lemma unloaded_model_is_refused_witness :
  generate_images (job (E:=E_steady) "a cat" 1) out_dir
    (unloaded (E:=E_steady) 7 0%nat)
  = (inl (ValueError "Model not loaded."), unloaded (E:=E_steady) 7 0%nat) /\
  load_textual_inversion VNone (VPath ["style.pt"]) (VStr "<style>")
    (unloaded (E:=E_steady) 7 0%nat)
  = (inl (ValueError "Model not loaded."), unloaded (E:=E_steady) 7 0%nat) /\
  unload_textual_inversion (VStr "<style>") (unloaded (E:=E_steady) 7 0%nat)
  = (inl (ValueError "Model not loaded."), unloaded (E:=E_steady) 7 0%nat) /\
  unload_all_textual_inversion (unloaded (E:=E_steady) 7 0%nat)
  = (inl (ValueError "Model not loaded."), unloaded (E:=E_steady) 7 0%nat).
Proof.
  apply (@unloaded_model_is_refused E_steady). reflexivity.
Defined.

Lemma generate_images_needs_output_dir_witness :
  generate_images (job (E:=E_steady) "a cat" 1) VNone
    (loaded (E:=E_steady) "inpainting-model" 7 0%nat)
  = (inl (AttributeError "'NoneType' object has no attribute 'mkdir'"),
     loaded (E:=E_steady) "inpainting-model" 7 0%nat).
Proof.
  apply (@generate_images_needs_output_dir E_steady
           (loaded (E:=E_steady) "inpainting-model" 7 0%nat)).
  reflexivity.
Defined.

Lemma load_pipeline_is_idempotent_witness :
  (forall id dev,
      Some "inpainting-model" = Some id ->
      _load_pipeline (Some id) None dev
        (loaded (E:=E_steady) "inpainting-model" 7 0%nat)
      = (inr tt, loaded (E:=E_steady) "inpainting-model" 7 0%nat)) /\
  (forall path dev,
      @None Path = Some path ->
      _load_pipeline None (Some path) dev
        (loaded (E:=E_steady) "inpainting-model" 7 0%nat)
      = (inr tt, loaded (E:=E_steady) "inpainting-model" 7 0%nat)) /\
  (forall new : StableDiffusionModelConfig E_steady,
      (exists id, hf_model_id new = Some id /\
                  Some "inpainting-model" = Some id /\
                  model_path new = None) \/
      (exists path, model_path new = Some path /\ None = Some path /\
                    hf_model_id new = None) ->
      update_pipeline new (loaded (E:=E_steady) "inpainting-model" 7 0%nat)
      = (inr tt,
         mkWorld (E:=E_steady)
           (mkSelf (E:=E_steady) (Some "inpainting-model") (Some new))
           0%nat [])).
Proof.
  apply (@load_pipeline_is_idempotent E_steady
           (loaded (E:=E_steady) "inpainting-model" 7 0%nat)
           "inpainting-model" (inpainting_model (E:=E_steady) 7));
    reflexivity.
Defined.

Lemma empty_mask_is_a_geometry_error_witness :
  Core.compute_bounding_box 127 zero_mask
  = inl (Core.GeometryError "empty region: no mask pixel above threshold") /\
  forall (original model_output : Core.Image)
         (mapping : Core.RegionMapping) (variant : Blend.t),
  exists msg,
    composite_8bit original zero_mask model_output mapping
      Post.DIRECT_REPLACE variant
    = inl (Core.GeometryError msg).
Proof.
  unfold composite_8bit.
  apply (@CoreFacts.empty_mask_is_a_geometry_error 127 255
           (fun im _ _ => im) (fun k => k) (fun k => k) (fun k => k)
           (fun o _ _ => o) zero_mask).
  apply CoreFacts.zero_mask_is_unmarked.
  - unfold Qle; simpl; lia.
  - repeat constructor.
Defined.

Lemma linear_blend_interpolates_witness :
  exists (final : Core.Image) (f : Core.Pixel),
    composite_8bit strip graded_mask strip_patch whole_strip Post.BLEND
      Blend.LINEAR_BLENDING = inr final /\
    Core.at_xy final 2 0 = Some f /\
    Core.same_pixel f (56, 66, 76)%Q /\
    exists (o p : Core.Pixel) (mv : Q),
      Core.at_xy strip 2 0 = Some o /\
      Core.at_xy graded_mask 2 0 = Some mv /\
      Core.at_xy
        (Core.placed_patch (fun im _ _ => im) strip strip_patch whole_strip)
        2 0 = Some p /\
      ((mv == 0)%Q -> Core.same_pixel f o) /\
      ((mv == 255)%Q -> Core.same_pixel f p) /\
      (let w := (mv / 255)%Q in
       (Core.red f == w * Core.red p + (1 - w) * Core.red o)%Q /\
       (Core.green f == w * Core.green p + (1 - w) * Core.green o)%Q /\
       (Core.blue f == w * Core.blue p + (1 - w) * Core.blue o)%Q /\
       ((0 <= mv)%Q -> (mv <= 255)%Q -> (0 <= w)%Q /\ (w <= 1)%Q)).
Proof.
  eexists; eexists.
  split; [ vm_compute; reflexivity | ].
  split; [ vm_compute; reflexivity | ].
  split; [ vm_compute; repeat split | ].
  eapply (@CoreFacts.linear_blend_interpolates 127 255 (fun im _ _ => im)
            (fun k => k) (fun k => k) (fun k => k) (fun o _ _ => o)
            strip strip_patch _ graded_mask whole_strip 2 0).
  - reflexivity.
  - vm_compute; reflexivity.
  - vm_compute; reflexivity.
Defined.

End ScenarioFacts.

(** ** Regular expressions: the matcher decides the language *)

Module ReFacts.

Import Re.

Local Open Scope list_scope.

Lemma cat_inv (r s : Regex) (x : Text) :
  Matches (Cat r s) x ->
  exists t u, x = t ++ u /\ Matches r t /\ Matches s u.
Proof.
  intros H. inversion H as [| | r' s' t u Hr Hs | | | |]; subst.
  exists t, u. repeat split; assumption.
Qed.

Lemma alt_inv (r s : Regex) (x : Text) :
  Matches (Alt r s) x -> Matches r x \/ Matches s x.
Proof. intros H. inversion H; subst; [ left | right ]; assumption. Qed.

Lemma class_inv (p : N -> bool) (x : Text) :
  Matches (Class p) x -> exists c, x = [c] /\ p c = true.
Proof. intros H. inversion H; subst. eexists; split; eauto. Qed.

Lemma eps_inv (x : Text) : Matches Eps x -> x = [].
Proof. intros H. inversion H. reflexivity. Qed.

Lemma void_inv (x : Text) : Matches Void x -> False.
Proof. intros H. inversion H. Qed.

Lemma nullable_spec (r : Regex) : nullable r = true <-> Matches r [].
Proof.
  induction r as [| | p | r IHr s IHs | r IHr s IHs | r IHr]; simpl.
  - split; [ discriminate | intros H; destruct (void_inv H) ].
  - split; [ intros _; constructor | reflexivity ].
  - split; [ discriminate | ].
    intros H. apply class_inv in H as (c & Hc & _). discriminate Hc.
  - rewrite andb_true_iff, IHr, IHs. split.
    + intros [Hr Hs]. apply (MCat Hr Hs).
    + intros H. apply cat_inv in H as (t & u & Heq & Hr & Hs).
      symmetry in Heq. apply app_eq_nil in Heq as [-> ->].
      split; assumption.
  - rewrite orb_true_iff, IHr, IHs. split.
    + intros [Hr | Hs]; [ apply MAltL | apply MAltR ]; assumption.
    + apply alt_inv.
  - split; [ intros _; constructor | reflexivity ].
Qed.

(** A non-empty text in [r*] starts with a non-empty text in [r]. *)
Lemma star_cons (r : Regex) (c : N) (t : Text) :
  Matches (Star r) (c :: t) ->
  exists t1 t2, t = (t1 ++ t2)%list /\ Matches r (c :: t1) /\
                Matches (Star r) t2.
Proof.
  intros H. remember (Star r) as sr eqn:Hsr. remember (c :: t) as ct eqn:Hct.
  revert c t Hct.
  induction H as [| | | | | r' | r' t1 t2 H1 _ H2 IH2];
    try discriminate Hsr; intros c t Hct.
  - discriminate Hct.
  - injection Hsr as ->.
    destruct t1 as [| c1 t1]; simpl in Hct.
    + apply (IH2 eq_refl _ _ Hct).
    + injection Hct as -> <-. exists t1, t2. repeat split; assumption.
Qed.

Lemma derive_spec (c : N) (r : Regex) (t : Text) :
  Matches (derive c r) t <-> Matches r (c :: t).
Proof.
  revert t.
  induction r as [| | p | r IHr s IHs | r IHr s IHs | r IHr]; intros t;
    simpl.
  - split; intros H; destruct (void_inv H).
  - split; intros H; [ destruct (void_inv H) | ].
    apply eps_inv in H. discriminate H.
  - destruct (p c) eqn:Hp; split; intros H.
    + apply eps_inv in H as ->. constructor. exact Hp.
    + apply class_inv in H as (c' & [= <- ->] & _). constructor.
    + destruct (void_inv H).
    + apply class_inv in H as (c' & [= <- _] & Hc). congruence.
  - split.
    + intros H. apply alt_inv in H as [H | H].
      * apply cat_inv in H as (t1 & t2 & -> & H1 & H2).
        apply IHr in H1. apply (MCat (t:=c :: t1) H1 H2).
      * destruct (nullable r) eqn:Hn; [ | destruct (void_inv H) ].
        apply nullable_spec in Hn. apply IHs in H.
        apply (MCat (t:=[]) Hn H).
    + intros H. apply cat_inv in H as (t1 & t2 & Heq & H1 & H2).
      destruct t1 as [| c1 t1]; simpl in Heq.
      * subst t2. apply MAltR. apply nullable_spec in H1. rewrite H1.
        apply IHs. exact H2.
      * injection Heq as <- ->. apply MAltL.
        apply MCat; [ apply IHr; exact H1 | exact H2 ].
  - split; intros H; apply alt_inv in H as [H | H];
      first [ apply MAltL; apply IHr; exact H
            | apply MAltR; apply IHs; exact H ].
  - split.
    + intros H. apply cat_inv in H as (t1 & t2 & -> & H1 & H2).
      apply IHr in H1. apply (MStarApp (t:=c :: t1) H1 H2).
    + intros H. apply star_cons in H as (t1 & t2 & -> & H1 & H2).
      apply MCat; [ apply IHr; exact H1 | exact H2 ].
Qed.

Lemma fullmatch_spec (r : Regex) (t : Text) :
  fullmatch r t = true <-> Matches r t.
Proof.
  unfold fullmatch. revert r; induction t as [| c t IH]; intros r; simpl.
  - apply nullable_spec.
  - rewrite IH. apply derive_spec.
Qed.

Lemma anything_matches (t : Text) : Matches Anything t.
Proof.
  unfold Anything. induction t as [| c t IH].
  - constructor.
  - apply (MStarApp (t:=[c]) (u:=t)); [ constructor; reflexivity | exact IH ].
Qed.

(** [search] finds a match exactly when some part of the text is in the
    language of the pattern. *)
Lemma search_spec (r : Regex) (t : Text) :
  search r t = true <->
  exists pre s suf, t = pre ++ s ++ suf /\ Matches r s.
Proof.
  unfold search. rewrite fullmatch_spec. split.
  - intros H. apply cat_inv in H as (pre & rest & -> & _ & H).
    apply cat_inv in H as (s & suf & -> & H & _).
    exists pre, s, suf. split; [ reflexivity | exact H ].
  - intros (pre & s & suf & -> & H).
    apply MCat; [ apply anything_matches | ].
    apply MCat; [ exact H | apply anything_matches ].
Qed.

Lemma literal_spec (t x : Text) : Matches (literal t) x <-> x = t.
Proof.
  revert x; induction t as [| c t IH]; intros x; simpl.
  - split; [ apply eps_inv | intros ->; constructor ].
  - split.
    + intros H. apply cat_inv in H as (a & b & -> & Ha & Hb).
      apply class_inv in Ha as (c' & -> & Hc).
      apply N.eqb_eq in Hc as <-. apply IH in Hb as ->. reflexivity.
    + intros ->. apply (MCat (t:=[c]) (u:=t)).
      * constructor. apply N.eqb_refl.
      * apply IH. reflexivity.
Qed.

Lemma star_class_spec (p : N -> bool) (x : Text) :
  Matches (Star (Class p)) x <-> forallb p x = true.
Proof.
  split.
  - intros H. remember (Star (Class p)) as r eqn:Hr.
    induction H as [| | | | | r' | r' t u Ht _ Hu IHu];
      try discriminate Hr.
    + reflexivity.
    + injection Hr as ->. apply class_inv in Ht as (c & -> & Hc).
      simpl. rewrite Hc. apply IHu. reflexivity.
  - induction x as [| c x IH]; simpl; intros H.
    + constructor.
    + apply andb_true_iff in H as [Hc Hx].
      apply (MStarApp (t:=[c]) (u:=x)); [ constructor; exact Hc | ].
      apply IH. exact Hx.
Qed.

Lemma plus_class_spec (p : N -> bool) (x : Text) :
  Matches (Plus (Class p)) x <-> x <> [] /\ forallb p x = true.
Proof.
  unfold Plus. split.
  - intros H. apply cat_inv in H as (a & b & -> & Ha & Hb).
    apply class_inv in Ha as (c & -> & Hc).
    apply star_class_spec in Hb. simpl. rewrite Hc, Hb.
    split; [ discriminate | reflexivity ].
  - intros [Hne H]. destruct x as [| c x]; [ congruence | ].
    simpl in H. apply andb_true_iff in H as [Hc Hx].
    apply (MCat (t:=[c]) (u:=x)); [ constructor; exact Hc | ].
    apply star_class_spec. exact Hx.
Qed.

End ReFacts.

(** ** The Florence-2 prompt validator *)

Module Florence2Facts.

Import Re Florence2.

Local Open Scope list_scope.

Section Validator.

Variable unicode_Nd : N -> bool.

Lemma pattern_spec (s : Text) :
  Matches (pattern unicode_Nd) s <->
  exists digits,
    digits <> [] /\ forallb unicode_Nd digits = true /\
    s = location_token digits.
Proof.
  unfold pattern, location_token. split.
  - intros H. apply ReFacts.cat_inv in H as (a & rest & -> & Ha & H).
    apply ReFacts.cat_inv in H as (ds & b & -> & Hds & Hb).
    apply ReFacts.literal_spec in Ha as ->.
    apply ReFacts.literal_spec in Hb as ->.
    apply ReFacts.plus_class_spec in Hds as [Hne Hall].
    exists ds. repeat split; assumption.
  - intros (ds & Hne & Hall & ->).
    apply MCat; [ apply ReFacts.literal_spec; reflexivity | ].
    apply MCat; [ | apply ReFacts.literal_spec; reflexivity ].
    apply ReFacts.plus_class_spec. split; assumption.
Qed.

Lemma location_check_spec (text_prompt : Text) :
  _validate_location_prompt unicode_Nd text_prompt = true <->
  exists pre digits suf,
    digits <> [] /\ forallb unicode_Nd digits = true /\
    text_prompt = pre ++ location_token digits ++ suf.
Proof.
  unfold _validate_location_prompt. rewrite ReFacts.search_spec. split.
  - intros (pre & s & suf & -> & H).
    apply pattern_spec in H as (ds & Hne & Hall & ->).
    exists pre, ds, suf. repeat split; assumption.
  - intros (pre & ds & suf & Hne & Hall & ->).
    exists pre, (location_token ds), suf. split; [ reflexivity | ].
    apply pattern_spec. exists ds. repeat split; assumption.
Qed.

(** X1: The location check accepts a prompt exactly when it contains,
    anywhere, a location token: the five characters [<loc_], then one or
    more decimal digits, then [>]. *)
Theorem location_prompt_contains_a_token (text_prompt : Text) :
  _validate_location_prompt unicode_Nd text_prompt = true <->
  exists pre digits suf,
    digits <> [] /\ forallb unicode_Nd digits = true /\
    text_prompt = pre ++ location_token digits ++ suf.
Proof. apply location_check_spec. Qed.

Lemma uses_loc_prompts_spec (task : Florence2TaskTypes) :
  existsb (task_eqb task) tasks_using_loc_prompts = true <->
  task = REGION_TO_CATEGORY \/ task = REGION_TO_DESCRIPTION \/
  task = REGION_TO_SEGMENTATION.
Proof.
  split.
  - destruct task; simpl; intros H; try discriminate H; tauto.
  - intros [-> | [-> | ->]]; reflexivity.
Qed.

Lemma validate_prompt_false_iff (text_prompt : Text)
  (task : Florence2TaskTypes) :
  validate_prompt unicode_Nd text_prompt task = false <->
  (task = REGION_TO_CATEGORY \/ task = REGION_TO_DESCRIPTION \/
   task = REGION_TO_SEGMENTATION) /\
  ~ (exists pre digits suf,
        digits <> [] /\ forallb unicode_Nd digits = true /\
        text_prompt = pre ++ location_token digits ++ suf).
Proof.
  unfold validate_prompt.
  rewrite <- location_check_spec, <- uses_loc_prompts_spec.
  destruct (existsb (task_eqb task) tasks_using_loc_prompts);
    destruct (_validate_location_prompt unicode_Nd text_prompt);
    intuition congruence.
Qed.

(** X2: [validate_prompt] rejects a prompt only for the three region tasks,
    and for those only when the prompt holds no location token; for
    every other task every prompt, the empty one included, is valid. *)
Theorem validate_prompt_rejects_only_region_prompts_without_token
  (text_prompt : Text) (task : Florence2TaskTypes) :
  validate_prompt unicode_Nd text_prompt task = false <->
  (task = REGION_TO_CATEGORY \/ task = REGION_TO_DESCRIPTION \/
   task = REGION_TO_SEGMENTATION) /\
  ~ (exists pre digits suf,
        digits <> [] /\ forallb unicode_Nd digits = true /\
        text_prompt = pre ++ location_token digits ++ suf).
Proof. apply validate_prompt_false_iff. Qed.

(** X3: The check is a search, not a full match: a valid prompt stays valid
    whatever text is put before and after it. *)
Theorem valid_prompt_stays_valid_in_context (text_prompt pre suf : Text)
  (task : Florence2TaskTypes) :
  validate_prompt unicode_Nd text_prompt task = true ->
  validate_prompt unicode_Nd (pre ++ text_prompt ++ suf) task = true.
Proof.
  unfold validate_prompt.
  destruct (existsb (task_eqb task) tasks_using_loc_prompts);
    [ | reflexivity ].
  rewrite !location_check_spec.
  intros (a & ds & b & Hne & Hall & ->).
  exists (pre ++ a), ds, (b ++ suf).
  repeat split; try assumption.
  rewrite <- !app_assoc. reflexivity.
Qed.

(** X4: A prompt shorter than seven characters cannot hold a location token:
    the region tasks reject it. *)
Theorem short_prompt_is_invalid_for_region_tasks (text_prompt : Text)
  (task : Florence2TaskTypes) :
  (List.length text_prompt < 7)%nat ->
  In task tasks_using_loc_prompts ->
  validate_prompt unicode_Nd text_prompt task = false.
Proof.
  intros Hlen Hin.
  apply validate_prompt_false_iff.
  split.
  - simpl in Hin. intuition congruence.
  - intros (pre & ds & suf & Hne & _ & ->).
    destruct ds as [| d ds]; [ congruence | ].
    unfold location_token in Hlen.
    rewrite !length_app in Hlen. simpl in Hlen. lia.
Qed.

End Validator.

End Florence2Facts.

(** ** The policy enumerations, both ways *)

Module EnumFacts.

(** X5: For each of the three enumerations, looking a member's value up
    gives the member back, and two members with the same value are the
    same member. *)
Theorem enumeration_values_round_trip :
  (forall x, Pre.of_value (Pre.value x) = Some x) /\
  (forall x, Post.of_value (Post.value x) = Some x) /\
  (forall x, Blend.of_value (Blend.value x) = Some x) /\
  (forall x y, Pre.value x = Pre.value y -> x = y) /\
  (forall x y, Post.value x = Post.value y -> x = y) /\
  (forall x y, Blend.value x = Blend.value y -> x = y).
Proof.
  assert (H1 : forall x, Pre.of_value (Pre.value x) = Some x)
    by (intros x; apply pre_of_value_spec; reflexivity).
  assert (H2 : forall x, Post.of_value (Post.value x) = Some x)
    by (intros x; apply post_of_value_spec; reflexivity).
  assert (H3 : forall x, Blend.of_value (Blend.value x) = Some x)
    by (intros x; apply blend_of_value_spec; reflexivity).
  repeat split; try assumption; intros x y H.
  - pose proof (H1 x) as Hx. rewrite H, H1 in Hx. congruence.
  - pose proof (H2 x) as Hx. rewrite H, H2 in Hx. congruence.
  - pose proof (H3 x) as Hx. rewrite H, H3 in Hx. congruence.
Qed.

End EnumFacts.

(** ** What a computation leaves alone *)

Section Respects.

Variable E : Externals.
Variable R : World E -> World E -> Prop.
Hypothesis R_refl : forall w, R w w.
Hypothesis R_trans : forall w1 w2 w3, R w1 w2 -> R w2 w3 -> R w1 w3.

Local Open Scope py_scope.

Lemma respects_ret (A : Type) (a : A) : respects R (ret a).
Proof. intros w r w' [= _ <-]. apply R_refl. Qed.

Lemma respects_raise (A : Type) (e : PyExn) : respects R (@raise _ A e).
Proof. intros w r w' [= _ <-]. apply R_refl. Qed.

Lemma respects_call (A : Type) (o : PyExn + A) : respects R (call o).
Proof. intros w r w' [= _ <-]. apply R_refl. Qed.

Lemma respects_get_self : respects R (@get_self E).
Proof. intros w r w' [= _ <-]. apply R_refl. Qed.

Lemma respects_observe (A : Type) (f : Ext E -> A) : respects R (observe f).
Proof. intros w r w' [= _ <-]. apply R_refl. Qed.

Lemma respects_bind (A B : Type) (m : M E A) (k : A -> M E B) :
  respects R m -> (forall a, respects R (k a)) -> respects R (bind m k).
Proof.
  intros Hm Hk w r w' H. unfold bind in H.
  destruct (m w) as [[e | a] w1] eqn:Hmw.
  - injection H as _ <-. apply (Hm _ _ _ Hmw).
  - apply (R_trans (Hm _ _ _ Hmw) (Hk a _ _ _ H)).
Qed.

Lemma respects_for_range (A : Type) (body : A -> M E A) (n : nat) (acc : A) :
  (forall a, respects R (body a)) -> respects R (for_range n body acc).
Proof.
  intros Hb. revert acc; induction n as [| n IH]; intros acc; simpl.
  - apply respects_ret.
  - apply respects_bind; [ apply Hb | exact IH ].
Qed.

Lemma respects_comprehension (A B : Type) (f : A -> M E B) (xs : list A) :
  (forall a, respects R (f a)) -> respects R (comprehension f xs).
Proof.
  intros Hf. induction xs as [| x xs IH]; simpl.
  - apply respects_ret.
  - apply respects_bind; [ apply Hf | intros y ].
    apply respects_bind; [ exact IH | intros ys; apply respects_ret ].
Qed.

Lemma respects_config_attr (attr : string) :
  respects R (config_attr (E:=E) attr).
Proof.
  unfold config_attr. apply respects_bind; [ apply respects_get_self | ].
  intros s. destruct (model_config s);
    [ apply respects_ret | apply respects_raise ].
Qed.

Lemma respects_pipe_attr (attr : string) :
  respects R (pipe_attr (E:=E) attr).
Proof.
  unfold pipe_attr. apply respects_bind; [ apply respects_get_self | ].
  intros s. destruct (pipe s); [ apply respects_ret | apply respects_raise ].
Qed.

Lemma respects_pipe_callable : respects R (@pipe_callable E).
Proof.
  unfold pipe_callable. apply respects_bind; [ apply respects_get_self | ].
  intros s. destruct (pipe s); [ apply respects_ret | apply respects_raise ].
Qed.

Lemma respects_check_model_ready : respects R (@_check_model_ready E).
Proof.
  unfold _check_model_ready.
  apply respects_bind; [ apply respects_get_self | ].
  intros s. destruct (pipe s); [ apply respects_ret | apply respects_raise ].
Qed.

End Respects.

Section Frames.

Variable E : Externals.

Local Open Scope py_scope.

Implicit Types (config : StableDiffusionInputConfig E) (w : World E).

Lemma keeps_self_refl w : keeps_self w w.
Proof. reflexivity. Qed.

Lemma keeps_self_trans w1 w2 w3 :
  keeps_self w1 w2 -> keeps_self w2 w3 -> keeps_self w1 w3.
Proof. unfold keeps_self. congruence. Qed.

Lemma logs_refl (P : Event E -> Prop) w : logs P w w.
Proof. exists []. rewrite app_nil_r. split; [ reflexivity | constructor ]. Qed.

Lemma logs_trans (P : Event E -> Prop) w1 w2 w3 :
  logs P w1 w2 -> logs P w2 w3 -> logs P w1 w3.
Proof.
  intros (t1 & H1 & P1) (t2 & H2 & P2). exists (t1 ++ t2)%list.
  split; [ rewrite H2, H1, app_assoc; reflexivity | ].
  apply Forall_app. split; assumption.
Qed.

Lemma log_keeps_self (ev : Event E) : respects (@keeps_self E) (log ev).
Proof. intros w r w' [= _ <-]. reflexivity. Qed.

Lemma outside_keeps_self (A : Type) (f : Ext E -> (PyExn + A) * Ext E) :
  respects (@keeps_self E) (outside f).
Proof.
  intros w r w' H. unfold outside in H.
  destruct (f (ext w)) as [o x]. injection H as _ <-. reflexivity.
Qed.

Lemma log_logs (P : Event E -> Prop) (ev : Event E) :
  P ev -> respects (logs P) (log ev).
Proof.
  intros Hev w r w' [= _ <-]. exists [ev]. simpl.
  split; [ reflexivity | repeat constructor; exact Hev ].
Qed.

Lemma outside_logs (P : Event E -> Prop) (A : Type)
  (f : Ext E -> (PyExn + A) * Ext E) :
  respects (logs P) (outside f).
Proof.
  intros w r w' H. unfold outside in H.
  destruct (f (ext w)) as [o x]. injection H as _ <-.
  exists []. simpl. rewrite app_nil_r. split; [ reflexivity | constructor ].
Qed.

Lemma put_self_logs (P : Event E -> Prop) (s : Self E) :
  respects (logs P) (put_self s).
Proof.
  intros w r w' [= _ <-].
  exists []. simpl. rewrite app_nil_r. split; [ reflexivity | constructor ].
Qed.

End Frames.

(** Closes goals [respects R m] for a preorder [R], given its two laws
    and a tactic for the steps that are particular to [R]. *)
Ltac frame_with Hr Ht prims :=
  repeat first
    [ apply (respects_ret Hr)
    | apply (respects_raise Hr)
    | apply (respects_call Hr)
    | apply (respects_get_self Hr)
    | apply (respects_observe Hr)
    | apply (respects_config_attr Hr Ht)
    | apply (respects_pipe_attr Hr Ht)
    | apply (respects_pipe_callable Hr Ht)
    | apply (respects_check_model_ready Hr Ht)
    | apply (respects_for_range Hr Ht); intros ?
    | apply (respects_comprehension Hr Ht); intros ?
    | prims
    | apply (respects_bind Ht); [ | intros ? ] ].

Ltac quiet :=
  match goal with
  | |- @respects ?E _ _ _ =>
      frame_with (@keeps_self_refl E) (@keeps_self_trans E)
        ltac:(first [ apply log_keeps_self | apply outside_keeps_self ])
  end.

Section QuietSteps.

Variable E : Externals.

Local Open Scope py_scope.

Implicit Types (config : StableDiffusionInputConfig E) (w : World E).

Lemma postprocess_one_keeps_self config (o : Image) :
  respects (@keeps_self E) (postprocess_one config o).
Proof. unfold postprocess_one. quiet. Qed.

Lemma inpainting_item_keeps_self config (images : list Image) :
  respects (@keeps_self E) (inpainting_item config images).
Proof.
  unfold inpainting_item. cbv zeta. quiet.
Qed.

Lemma text2img_item_keeps_self config (images : list Image) :
  respects (@keeps_self E) (text2img_item config images).
Proof. unfold text2img_item. cbv zeta. quiet. Qed.

Lemma img2img_item_keeps_self config (images : list Image) :
  respects (@keeps_self E) (img2img_item config images).
Proof. unfold img2img_item. cbv zeta. quiet. Qed.

Lemma save_if_requested_keeps_self (images : list Image) (d : PyVal) :
  respects (@keeps_self E) (save_if_requested images d).
Proof. unfold save_if_requested. destruct (truthy d); quiet. Qed.

Lemma mkdir_output_dir_keeps_self (d : PyVal) :
  respects (@keeps_self E) (mkdir_output_dir d).
Proof. unfold mkdir_output_dir. destruct d; quiet. Qed.

End QuietSteps.

(** ** Loading a pipeline *)

Section LoadFacts.

Variable E : Externals.

Local Open Scope py_scope.

Implicit Types (config : StableDiffusionInputConfig E) (w : World E).

Lemma bind_cases (A B : Type) (m : M E A) (k : A -> M E B) w
  (r : PyExn + B) w' :
  bind m k w = (r, w') ->
  (exists e, m w = (inl e, w') /\ r = inl e) \/
  (exists a w1, m w = (inr a, w1) /\ k a w1 = (r, w')).
Proof.
  unfold bind. destruct (m w) as [[e | a] w1]; intros H.
  - injection H as <- <-. left. exists e. split; reflexivity.
  - right. exists a, w1. split; [ reflexivity | exact H ].
Qed.

Lemma config_attr_cases (attr : string) w
  (r : PyExn + StableDiffusionModelConfig E) w' :
  config_attr attr w = (r, w') ->
  w' = w /\
  ((model_config (self w) = None /\ r = inl (no_attribute VNone attr)) \/
   (exists c, model_config (self w) = Some c /\ r = inr c)).
Proof.
  unfold config_attr, bind, get_self.
  destruct (model_config (self w)) as [c |]; intros [= <- <-].
  - split; [ reflexivity | right; exists c; split; reflexivity ].
  - split; [ reflexivity | left; split; reflexivity ].
Qed.

(** The part of a load up to the loader's return leaves the instance
    alone. *)
Lemma loader_keeps_self (cls : PipelineCls) (descriptor dev : string)
  (is_finetuned : bool) :
  respects (@keeps_self E)
    (if is_finetuned then
       log (EvFromSingleFile E cls descriptor) ;;
       o <- outside (from_single_file cls descriptor (CACHE_DIR E) true) ;;
       log (EvTo E dev) ;;
       outside (pipe_to o dev)
     else
       log (EvCacheLookup E (VStr descriptor)) ;;
       local_only <- observe (check_if_hf_cache_exists (CACHE_DIR E)
                                (VStr descriptor)) ;;
       log (EvFromPretrained E cls descriptor local_only) ;;
       o <- outside (from_pretrained cls descriptor (CACHE_DIR E)
                       local_only) ;;
       log (EvTo E dev) ;;
       outside (pipe_to o dev)).
Proof. destruct is_finetuned; quiet. Qed.

(** A load either raises and leaves the instance as it was, or returns
    with the loaded pipeline, its safety checker removed unless
    [check_nsfw] is set, and with the configuration rewritten to the
    requested source and device. *)
Lemma load_from_cases (hf : option string) (mp : option Path)
  (descriptor : string) (is_finetuned : bool) (dev : option string)
  w (r : PyExn + unit) w' :
  load_from hf mp descriptor is_finetuned dev w = (r, w') ->
  (exists e, r = inl e /\ self w' = self w) \/
  (r = inr tt /\
   exists (c : StableDiffusionModelConfig E) (p : Pipeline E),
     model_config (self w) = Some c /\
     self w'
     = mkSelf
         (Some (if check_nsfw c then p else set_safety_checker_None p))
         (Some (mkModelConfig hf mp
                  (match dev with Some d => d | None => device c end)
                  (task_type c) (check_nsfw c) (seed c) (generator c)))).
Proof.
  unfold load_from. intros H.
  apply bind_cases in H as [(e & H & ->) | (d' & w1 & Hdev & H)].
  { left. exists e. split; [ reflexivity | ].
    destruct dev as [d |]; [ discriminate H | ].
    apply bind_cases in H as [(e' & H & _) | (c & w1 & Hc & H)].
    - apply config_attr_cases in H as [-> _]. reflexivity.
    - discriminate H. }
  assert (Hw1 : w1 = w /\
                (dev = None -> exists c, model_config (self w) = Some c /\
                                         d' = device c) /\
                (forall d, dev = Some d -> d' = d)).
  { destruct dev as [d |].
    - injection Hdev as <- <-. repeat split; congruence.
    - apply bind_cases in Hdev as [(e' & H' & [=]) | (c & w2 & Hc & H')].
      apply config_attr_cases in Hc
        as [-> [[_ [=]] | (c' & Hc' & [= ->])]].
      injection H' as <- <-. split; [ reflexivity | split ].
      + intros _. exists c'. split; [ exact Hc' | reflexivity ].
      + discriminate. }
  destruct Hw1 as (-> & HdevN & HdevS).
  apply bind_cases in H as [(e & H & ->) | (c & w1 & Hc & H)].
  { left. exists e. split; [ reflexivity | ].
    apply config_attr_cases in H as [-> _]. reflexivity. }
  apply config_attr_cases in Hc as [-> [[_ [=]] | (c' & Hc' & [= ->])]].
  apply bind_cases in H as [(e & H & ->) | (cls & w1 & Hcls & H)].
  { left. exists e. split; [ reflexivity | ].
    destruct (PIPELINE_CLS_MAP (task_type c'));
      injection H as _ <-; reflexivity. }
  assert (w1 = w) as ->.
  { destruct (PIPELINE_CLS_MAP (task_type c')); [ | discriminate Hcls ].
    injection Hcls as _ <-. reflexivity. }
  apply bind_cases in H as [(e & H & ->) | (p & w1 & Hp & H)].
  { left. exists e. split; [ reflexivity | ].
    apply (loader_keeps_self H). }
  apply loader_keeps_self in Hp. unfold keeps_self in Hp.
  right.
  unfold set_pipe, set_model_config, config_attr, pipe_attr, bind,
    get_self, put_self, ret in H.
  simpl in H. rewrite Hp, Hc' in H. simpl in H.
  assert (Hd : d' = match dev with Some d => d | None => device c' end).
  { destruct dev as [d |].
    - apply HdevS. reflexivity.
    - destruct (HdevN eq_refl) as (c0 & Hc0 & ->). congruence. }
  destruct (check_nsfw c') eqn:Hn; simpl in H; rewrite ?Hc' in H;
    simpl in H; injection H as <- <-; (split; [ reflexivity | ]);
    exists c', p; (split; [ exact Hc' | ]); simpl;
    rewrite Hn, Hd; reflexivity.
Qed.

Lemma path_eqb_true (p q : Path) : path_eqb p q = true -> p = q.
Proof.
  unfold path_eqb. destruct (list_eq_dec string_dec p q);
    [ intros _; assumption | discriminate ].
Qed.

(** [_load_pipeline], by cases: it raises and leaves the instance as it
    was; or it returns at once because the requested source is the
    recorded one and a pipeline is loaded; or it loads. *)
Lemma load_pipeline_cases (hf : option string) (mp : option Path)
  (dev : option string) w (r : PyExn + unit) w' :
  _load_pipeline hf mp dev w = (r, w') ->
  (exists e, r = inl e /\ self w' = self w) \/
  (r = inr tt /\ w' = w /\
   exists (c : StableDiffusionModelConfig E) (p : Pipeline E),
     model_config (self w) = Some c /\ pipe (self w) = Some p /\
     ((mp = None /\ hf <> None /\ hf_model_id c = hf) \/
      (hf = None /\ mp <> None /\ model_path c = mp))) \/
  (r = inr tt /\ xorb (is_Some hf) (is_Some mp) = true /\
   exists (c : StableDiffusionModelConfig E) (p : Pipeline E),
     model_config (self w) = Some c /\
     self w'
     = mkSelf
         (Some (if check_nsfw c then p else set_safety_checker_None p))
         (Some (mkModelConfig hf mp
                  (match dev with Some d => d | None => device c end)
                  (task_type c) (check_nsfw c) (seed c) (generator c)))).
Proof.
  unfold _load_pipeline. intros H.
  destruct hf as [id |], mp as [path |].
  - injection H as <- <-. left. eexists; split; reflexivity.
  - apply bind_cases in H as [(e & H & ->) | (c & w1 & Hc & H)].
    { left. exists e. split; [ reflexivity | ].
      apply config_attr_cases in H as [-> _]. reflexivity. }
    apply config_attr_cases in Hc as [-> [[_ [=]] | (c' & Hc' & [= ->])]].
    unfold bind at 1, get_self in H.
    destruct (option_string_eqb (hf_model_id c') (Some id)
              && is_Some (pipe (self w))) eqn:Hsame.
    + injection H as <- <-. right; left.
      apply andb_true_iff in Hsame as [Hid Hp].
      destruct (pipe (self w)) as [p |] eqn:Hpipe; [ | discriminate Hp ].
      destruct (hf_model_id c') as [id' |] eqn:Hhf; [ | discriminate Hid ].
      simpl in Hid. apply String.eqb_eq in Hid as ->.
      repeat split. exists c', p. repeat split; try assumption.
      left. repeat split; [ discriminate | exact Hhf ].
    + apply load_from_cases in H as [H | (-> & H)];
        [ left; exact H | right; right ].
      split; [ reflexivity | split; [ reflexivity | exact H ] ].
  - apply bind_cases in H as [(e & H & ->) | (c & w1 & Hc & H)].
    { left. exists e. split; [ reflexivity | ].
      apply config_attr_cases in H as [-> _]. reflexivity. }
    apply config_attr_cases in Hc as [-> [[_ [=]] | (c' & Hc' & [= ->])]].
    unfold bind at 1, get_self in H.
    destruct (option_path_eqb (model_path c') (Some path)
              && is_Some (pipe (self w))) eqn:Hsame.
    + injection H as <- <-. right; left.
      apply andb_true_iff in Hsame as [Hid Hp].
      destruct (pipe (self w)) as [p |] eqn:Hpipe; [ | discriminate Hp ].
      destruct (model_path c') as [path' |] eqn:Hmp; [ | discriminate Hid ].
      simpl in Hid. apply path_eqb_true in Hid as ->.
      repeat split. exists c', p. repeat split; try assumption.
      right. repeat split; [ discriminate | exact Hmp ].
    + apply load_from_cases in H as [H | (-> & H)];
        [ left; exact H | right; right ].
      split; [ reflexivity | split; [ reflexivity | exact H ] ].
  - injection H as <- <-. left. eexists; split; reflexivity.
Qed.

(** Asking for the recorded source of a loaded, coherent instance is a
    no-op, whichever source it is. *)
Lemma load_model_hard_set_noop w (p : Pipeline E) :
  coherent (self w) -> pipe (self w) = Some p ->
  _load_model_hard_set w = (inr tt, w).
Proof.
  intros Hco Hp. unfold coherent in Hco. rewrite Hp in Hco.
  destruct Hco as (c & Hc & Hone).
  unfold _load_model_hard_set.
  rewrite (bind_value _ (config_attr_run "hf_model_id" Hc)).
  unfold one_source in Hone.
  destruct (hf_model_id c) as [id |] eqn:Hhf,
           (model_path c) as [path |] eqn:Hmp; try discriminate Hone.
  - unfold _load_pipeline.
    rewrite (bind_value _ (config_attr_run "hf_model_id" Hc)).
    unfold bind, get_self. rewrite Hhf, Hp. simpl.
    rewrite String.eqb_refl. reflexivity.
  - unfold _load_pipeline.
    rewrite (bind_value _ (config_attr_run "model_path" Hc)).
    unfold bind, get_self. rewrite Hmp, Hp. simpl.
    rewrite path_eqb_same. reflexivity.
Qed.

(** X6: A load that fails leaves the instance as it was: the pipeline that
    was loaded before, if any, is still there, and the configuration is
    the old one.  This holds of [_load_pipeline] and of
    [update_pipeline], which then does not record the configuration it
    was given. *)
Theorem failed_load_keeps_the_instance (hf : option string)
  (mp : option Path) (dev : option string)
  (new : StableDiffusionModelConfig E) w (e : PyExn) w' :
  _load_pipeline hf mp dev w = (inl e, w') \/
  update_pipeline new w = (inl e, w') ->
  self w' = self w.
Proof.
  intros [H | H].
  - apply load_pipeline_cases in H
      as [(e' & _ & Hs) | [([=] & _) | ([=] & _)]].
    exact Hs.
  - unfold update_pipeline in H.
    apply bind_cases in H as [(e' & H & _) | ([] & w1 & _ & H)].
    + apply load_pipeline_cases in H
        as [(e'' & _ & Hs) | [([=] & _) | ([=] & _)]].
      exact Hs.
    + discriminate H.
Qed.

(** X7: A load that returns leaves a pipeline loaded and a configuration
    that names exactly the requested source; task type, NSFW flag, seed
    and generator are those of the configuration before.  (On an
    instance that was coherent.) *)
Theorem successful_load_records_the_source (hf : option string)
  (mp : option Path) (dev : option string) w w' :
  coherent (self w) ->
  _load_pipeline hf mp dev w = (inr tt, w') ->
  exists (c c' : StableDiffusionModelConfig E) (p' : Pipeline E),
    model_config (self w) = Some c /\
    pipe (self w') = Some p' /\
    model_config (self w') = Some c' /\
    hf_model_id c' = hf /\ model_path c' = mp /\
    one_source c' = true /\
    task_type c' = task_type c /\ check_nsfw c' = check_nsfw c /\
    seed c' = seed c /\ generator c' = generator c.
Proof.
  intros Hco H.
  apply load_pipeline_cases in H
    as [(e & [=] & _) | [(_ & -> & c & p & Hc & Hp & Hsrc)
                        | (_ & Hx & c & p & Hc & ->)]].
  - unfold coherent in Hco. rewrite Hp in Hco.
    destruct Hco as (c0 & Hc0 & Hone).
    assert (c0 = c) as -> by congruence.
    unfold one_source in Hone.
    assert (Hboth : hf_model_id c = hf /\ model_path c = mp).
    { destruct Hsrc as [(-> & Hne & H) | (-> & Hne & H)];
        (split; [ | ]); try exact H.
      - rewrite H in Hone. destruct hf; [ | congruence ].
        destruct (model_path c); [ discriminate Hone | reflexivity ].
      - rewrite H in Hone. destruct mp; [ | congruence ].
        destruct (hf_model_id c); [ discriminate Hone | reflexivity ]. }
    destruct Hboth as [Hh Hm].
    exists c, c, p. repeat split; assumption.
  - eexists c, _, _. simpl. repeat split; try eassumption; reflexivity.
Qed.

End LoadFacts.

(** ** Generating on a loaded instance *)

Ltac quiet_tasks :=
  match goal with
  | |- @respects ?E _ _ _ =>
      frame_with (@keeps_self_refl E) (@keeps_self_trans E)
        ltac:(first [ apply log_keeps_self
                    | apply outside_keeps_self
                    | apply inpainting_item_keeps_self
                    | apply text2img_item_keeps_self
                    | apply img2img_item_keeps_self
                    | apply save_if_requested_keeps_self
                    | apply mkdir_output_dir_keeps_self ])
  end.

Section GenerateFacts.

Variable E : Externals.

Local Open Scope py_scope.

Implicit Types (config : StableDiffusionInputConfig E) (w : World E).

(** On a coherent instance with a pipeline loaded, each of the three
    tasks leaves the instance as it is, whatever its outcome: the model
    is not loaded again. *)
Lemma tasks_keep_self config (d : PyVal) w (p : Pipeline E)
  (r : PyExn + list Image) w' :
  coherent (self w) -> pipe (self w) = Some p ->
  _generate_images_text2img config d w = (r, w') \/
  _generate_images_img2img config d w = (r, w') \/
  _generate_images_inpainting config d w = (r, w') ->
  self w' = self w.
Proof.
  intros Hco Hp [H | [H | H]];
    [ unfold _generate_images_text2img in H
    | unfold _generate_images_img2img in H
    | unfold _generate_images_inpainting in H ];
    cbv zeta in H;
    rewrite (bind_value _ (load_model_hard_set_noop Hco Hp)) in H;
    match type of H with
    | ?m w = _ =>
        assert (Hq : respects (@keeps_self E) m) by quiet_tasks;
        exact (Hq _ _ _ H)
    end.
Qed.

(** The scheduler step of [generate_images] on a loaded instance: the
    instance is as before, or the step returned having set the scheduler
    of the loaded pipeline. *)
Lemma scheduler_step_cases config w (p : Pipeline E) (r : PyExn + unit) w' :
  pipe (self w) = Some p ->
  match scheduler_type config with
  | Some t =>
      log (EvGetScheduler E) ;;
      sch <- call (get_scheduler t) ;;
      p0 <- pipe_attr "scheduler" ;;
      set_pipe (Some (set_scheduler sch p0))
  | None => ret tt
  end w = (r, w') ->
  self w' = self w \/
  exists t sch,
    scheduler_type config = Some t /\ get_scheduler t = inr sch /\
    r = inr tt /\
    self w' = mkSelf (Some (set_scheduler sch p)) (model_config (self w)).
Proof.
  intros Hp H. destruct (scheduler_type config) as [t |].
  - apply bind_cases in H as [(e & H & _) | ([] & w1 & Hlog & H)].
    { discriminate H. }
    injection Hlog as <-.
    apply bind_cases in H as [(e & H & _) | (sch & w2 & Hsch & H)].
    { left. injection H as _ <-. reflexivity. }
    unfold call in Hsch. injection Hsch as Hsch <-.
    unfold pipe_attr, set_pipe, bind, get_self, put_self, ret in H.
    simpl in H. rewrite Hp in H. simpl in H. injection H as <- <-.
    right. exists t, sch. repeat split. exact Hsch.
  - left. injection H as _ <-. reflexivity.
Qed.

Lemma coherent_same_config (s s' : Self E) :
  model_config s' = model_config s ->
  is_Some (pipe s') = is_Some (pipe s) ->
  coherent s -> coherent s'.
Proof.
  unfold coherent. intros Hc Hp H.
  destruct (pipe s'), (pipe s); try discriminate Hp; try exact I.
  rewrite Hc. exact H.
Qed.

Lemma generate_images_frame config (d : PyVal) w
  (r : PyExn + list Image) w' :
  coherent (self w) ->
  generate_images config d w = (r, w') ->
  model_config (self w') = model_config (self w) /\
  (pipe (self w') = pipe (self w) \/
   exists t sch p,
     scheduler_type config = Some t /\ get_scheduler t = inr sch /\
     pipe (self w) = Some p /\
     pipe (self w') = Some (set_scheduler sch p)).
Proof.
  intros Hco H. unfold generate_images in H. cbv zeta in H.
  destruct (pipe (self w)) as [p |] eqn:Hp.
  2:{ rewrite (bind_raises _ (check_model_ready_unloaded Hp)) in H.
      injection H as _ <-. rewrite Hp. split; [ | left ]; reflexivity. }
  rewrite (bind_value _ (check_model_ready_loaded Hp)) in H.
  apply bind_cases in H as [(e & H & _) | ([] & w2 & Hmk & H)].
  { apply mkdir_output_dir_keeps_self in H. unfold keeps_self in H.
    rewrite H, Hp. split; [ | left ]; reflexivity. }
  apply mkdir_output_dir_keeps_self in Hmk. unfold keeps_self in Hmk.
  assert (Hp2 : pipe (self w2) = Some p) by (rewrite Hmk; exact Hp).
  assert (Hstep : forall w3 w4,
             (self w3 = self w2 \/
              exists t sch,
                scheduler_type config = Some t /\
                get_scheduler t = inr sch /\
                self w3
                = mkSelf (Some (set_scheduler sch p))
                    (model_config (self w2))) ->
             self w4 = self w3 ->
             model_config (self w4) = model_config (self w) /\
             (pipe (self w4) = Some p \/
              exists t sch p0,
                scheduler_type config = Some t /\
                get_scheduler t = inr sch /\ Some p = Some p0 /\
                pipe (self w4) = Some (set_scheduler sch p0))).
  { intros w3 w4 [H3 | (t & sch & Ht & Hs & H3)] H4;
      rewrite H4, H3; simpl; rewrite ?Hmk.
    - split; [ reflexivity | left; exact Hp ].
    - split; [ reflexivity | right ].
      exists t, sch, p. repeat split; assumption. }
  apply bind_cases in H as [(e & H & _) | ([] & w3 & Hsch & H)].
  { destruct (@scheduler_step_cases config w2 p _ _ Hp2 H)
      as [H' | (t & sch & _ & _ & [=] & _)].
    apply (Hstep w2 w'); [ left; reflexivity | exact H' ]. }
  pose proof (@scheduler_step_cases config w2 p _ _ Hp2 Hsch) as Hcases.
  assert (Hsch' : self w3 = self w2 \/
                  exists t sch,
                    scheduler_type config = Some t /\
                    get_scheduler t = inr sch /\
                    self w3
                    = mkSelf (Some (set_scheduler sch p))
                        (model_config (self w2))).
  { destruct Hcases as [Hs | (t & sch & Ht & Hs & _ & H3)];
      [ left; exact Hs | right; exists t, sch; repeat split; assumption ]. }
  assert (Hco3 : coherent (self w3)).
  { apply (coherent_same_config (s:=self w)); [ | | exact Hco ].
    - destruct Hsch' as [-> | (t & sch & _ & _ & ->)]; simpl;
        rewrite Hmk; reflexivity.
    - destruct Hsch' as [-> | (t & sch & _ & _ & ->)]; simpl;
        rewrite ?Hmk, Hp; reflexivity. }
  assert (Hp3 : exists p3, pipe (self w3) = Some p3).
  { destruct Hsch' as [-> | (t & sch & _ & _ & ->)]; simpl;
      [ rewrite Hmk; exists p; exact Hp | eexists; reflexivity ]. }
  destruct Hp3 as [p3 Hp3].
  apply bind_cases in H as [(e & H & _) | (c & w4 & Hc & H)].
  { apply config_attr_cases in H as [-> _].
    apply (Hstep w3 w3); [ exact Hsch' | reflexivity ]. }
  apply config_attr_cases in Hc as [-> _].
  apply (Hstep w3 w'); [ exact Hsch' | ].
  destruct (task_type c).
  - apply (tasks_keep_self (config:=config) (d:=pathify_strings E d)
             (r:=r) Hco3 Hp3). left. exact H.
  - apply (tasks_keep_self (config:=config) (d:=pathify_strings E d)
             (r:=r) Hco3 Hp3). right; left. exact H.
  - apply (tasks_keep_self (config:=config) (d:=pathify_strings E d)
             (r:=r) Hco3 Hp3). right; right. exact H.
  - injection H as _ <-. reflexivity.
Qed.

(** X8: [generate_images], by what it leaves of a coherent instance: the
    configuration is untouched, and the pipeline is the one that was
    loaded, with at most its scheduler set.  This holds whether the call
    returns or raises: no model is loaded by generating. *)
Theorem generate_images_only_sets_the_scheduler config (d : PyVal) w
  (r : PyExn + list Image) w' :
  coherent (self w) ->
  generate_images config d w = (r, w') ->
  model_config (self w') = model_config (self w) /\
  (pipe (self w') = pipe (self w) \/
   exists t sch p,
     scheduler_type config = Some t /\ get_scheduler t = inr sch /\
     pipe (self w) = Some p /\
     pipe (self w') = Some (set_scheduler sch p)).
Proof. apply generate_images_frame. Qed.

End GenerateFacts.

(** ** The instance over its life *)

Section LifeFacts.

Variable E : Externals.

Local Open Scope py_scope.

Implicit Types (config : StableDiffusionInputConfig E) (w : World E).

Lemma same_shape_refl w : same_shape w w.
Proof. split; reflexivity. Qed.

Lemma same_shape_trans w1 w2 w3 :
  same_shape w1 w2 -> same_shape w2 w3 -> same_shape w1 w3.
Proof. unfold same_shape. intros [? ?] [? ?]. split; congruence. Qed.

Lemma keeps_self_same_shape (A : Type) (m : M E A) :
  respects (@keeps_self E) m -> respects (@same_shape E) m.
Proof.
  intros H w r w' Hm. apply H in Hm. unfold keeps_self in Hm.
  unfold same_shape. rewrite Hm. split; reflexivity.
Qed.

(** A method of the pipeline replaces the loaded pipeline by what the
    method returns; it cannot load or unload. *)
Lemma pipe_method_same_shape (attr : string)
  (f : Pipeline E -> Ext E -> (PyExn + Pipeline E) * Ext E) :
  respects (@same_shape E) (pipe_method attr f).
Proof.
  intros w r w' H. unfold pipe_method in H.
  apply bind_cases in H as [(e & H & _) | (p & w1 & Hp & H)].
  { unfold pipe_attr, bind, get_self in H.
    destruct (pipe (self w)); injection H as _ <-; apply same_shape_refl. }
  unfold pipe_attr, bind, get_self in Hp.
  destruct (pipe (self w)) as [p0 |] eqn:Hpipe; [ | discriminate Hp ].
  injection Hp as <- <-.
  apply bind_cases in H as [(e & H & _) | (p' & w2 & Hf & H)].
  { apply (keeps_self_same_shape (@outside_keeps_self E _ (f p0)) H). }
  apply outside_keeps_self in Hf. unfold keeps_self in Hf.
  unfold set_pipe, bind, get_self, put_self in H. injection H as _ <-.
  unfold same_shape. simpl. rewrite Hf, Hpipe. split; reflexivity.
Qed.

End LifeFacts.

Ltac shaped :=
  match goal with
  | |- @respects ?E _ _ _ =>
      frame_with (@same_shape_refl E) (@same_shape_trans E)
        ltac:(first
                [ apply pipe_method_same_shape
                | apply keeps_self_same_shape;
                  first [ apply log_keeps_self | apply outside_keeps_self ] ])
  end.

Section LifeFacts2.

Variable E : Externals.

Local Open Scope py_scope.

Implicit Types (config : StableDiffusionInputConfig E) (w : World E).

Lemma load_textual_inversion_same_shape (hf fp tok : PyVal) :
  respects (@same_shape E) (load_textual_inversion hf fp tok).
Proof.
  unfold load_textual_inversion. cbv zeta.
  destruct (negb (is_None (pathify_strings E fp)));
    [ | destruct (negb (is_None (pathify_strings E hf))) ].
  - apply (respects_bind (@same_shape_trans E)); [ shaped | intros _ ].
    apply (respects_bind (@same_shape_trans E)); [ | intros _; shaped ].
    destruct (is_None (pathify_strings E tok)); [ shaped | ].
    destruct (pathify_strings E fp) as [| | | | | fs | ];
      destruct (pathify_strings E tok) as [| | | | | ts | ]; try shaped.
    destruct (negb (List.length fs =? List.length ts)%nat); shaped.
  - shaped.
  - shaped.
Qed.

Lemma unload_textual_inversion_same_shape (tokens : PyVal) :
  respects (@same_shape E) (unload_textual_inversion tokens).
Proof. unfold unload_textual_inversion. shaped. Qed.

Lemma unload_all_textual_inversion_same_shape :
  respects (@same_shape E) (@unload_all_textual_inversion E).
Proof. unfold unload_all_textual_inversion. shaped. Qed.

Lemma update_pipeline_coherent (new : StableDiffusionModelConfig E) w
  (r : PyExn + unit) w' :
  coherent (self w) -> update_pipeline new w = (r, w') ->
  coherent (self w').
Proof.
  intros Hco H. unfold update_pipeline in H.
  apply bind_cases in H as [(e & H & _) | ([] & w1 & Hload & H)].
  { apply load_pipeline_cases in H
      as [(e' & _ & Hs) | [([=] & _) | ([=] & _)]].
    rewrite Hs. exact Hco. }
  unfold set_model_config, bind, get_self, put_self in H.
  injection H as _ <-. unfold coherent. simpl.
  apply load_pipeline_cases in Hload
    as [(e & [=] & _) | [(_ & -> & c & p & Hc & Hp & Hsrc)
                        | (_ & Hx & c & p & Hc & ->)]].
  - rewrite Hp. exists new. split; [ reflexivity | ].
    unfold one_source.
    destruct Hsrc as [(-> & Hne & _) | (-> & Hne & _)].
    + destruct (hf_model_id new); [ reflexivity | congruence ].
    + destruct (model_path new); [ reflexivity | congruence ].
  - simpl. exists new. split; [ reflexivity | exact Hx ].
Qed.

Lemma init_coherent (cfg : option (StableDiffusionModelConfig E))
  (x : Ext E) w :
  __init__ cfg (mkWorld (mkSelf None None) x []) = (inr tt, w) ->
  coherent (self w).
Proof.
  unfold __init__. intros H.
  apply bind_returns in H as ([] & w1 & Hput & H).
  injection Hput as <-.
  destruct cfg as [c |].
  - destruct (is_Some (hf_model_id c) || is_Some (model_path c)).
    + apply load_pipeline_cases in H
        as [(e & [=] & _) | [(_ & _ & c0 & p & _ & Hp & _)
                            | (_ & Hx & c0 & p & Hc & ->)]].
      * discriminate Hp.
      * unfold coherent. simpl. eexists. split; [ reflexivity | exact Hx ].
    + injection H as <-. exact I.
  - injection H as <-. exact I.
Qed.

Lemma perform_coherent (c : MethodCall E) w :
  coherent (self w) -> coherent (self (snd (perform c w))).
Proof.
  intros Hco. destruct c as [new | config d | hf fp tok | tokens |]; simpl.
  - destruct (update_pipeline new w) as [r w'] eqn:H.
    apply (update_pipeline_coherent Hco H).
  - destruct (generate_images config d w) as [r w'] eqn:H.
    destruct (generate_images_frame Hco H) as [Hc Hp]. simpl.
    apply (coherent_same_config Hc); [ | exact Hco ].
    destruct Hp as [-> | (t & sch & p & _ & _ & -> & ->)]; reflexivity.
  - destruct (load_textual_inversion hf fp tok w) as [r w'] eqn:H.
    apply load_textual_inversion_same_shape in H as [Hc Hp].
    apply (coherent_same_config Hc Hp Hco).
  - destruct (unload_textual_inversion tokens w) as [r w'] eqn:H.
    apply unload_textual_inversion_same_shape in H as [Hc Hp].
    apply (coherent_same_config Hc Hp Hco).
  - destruct (unload_all_textual_inversion w) as [r w'] eqn:H.
    apply unload_all_textual_inversion_same_shape in H as [Hc Hp].
    apply (coherent_same_config Hc Hp Hco).
Qed.

(** X9: Whatever the instance has been through since its constructor
    returned, a loaded pipeline comes with a configuration that names
    exactly one model source, the id or the path. *)
Theorem reachable_instance_is_coherent w :
  reachable w -> coherent (self w).
Proof.
  induction 1 as [cfg x w H | c w _ IH | x w _ IH].
  - apply (init_coherent H).
  - apply perform_coherent. exact IH.
  - exact IH.
Qed.

End LifeFacts2.

(** ** Edge cases of the methods *)

Section EdgeFacts.

Variable E : Externals.

Local Open Scope py_scope.

Implicit Types (config : StableDiffusionInputConfig E) (w : World E).

(** X10: An instance built without a configuration can never be used: every
    method raises, and leaves it without pipeline and without
    configuration, so the same holds of the next call. *)
Theorem unconfigured_instance_stays_unusable w (c : MethodCall E) :
  self w = mkSelf None None ->
  (exists e, fst (perform c w) = inl e) /\
  self (snd (perform c w)) = mkSelf None None.
Proof.
  intros Hs.
  assert (Hp : pipe (self w) = None) by (rewrite Hs; reflexivity).
  assert (Hc : model_config (self w) = None) by (rewrite Hs; reflexivity).
  pose proof (check_model_ready_unloaded Hp) as Hguard.
  destruct c as [new | config d | hf fp tok | tokens |]; simpl.
  - destruct (update_pipeline new w) as [r w'] eqn:H. simpl.
    unfold update_pipeline in H.
    apply bind_cases in H as [(e & H & ->) | ([] & w1 & Hload & H)].
    + split; [ exists e; reflexivity | ].
      apply load_pipeline_cases in H
        as [(e' & _ & Hs') | [([=] & _) | ([=] & _)]].
      rewrite Hs'. exact Hs.
    + apply load_pipeline_cases in Hload
        as [(e & [=] & _) | [(_ & _ & c & p & Hc' & _)
                            | (_ & _ & c & p & Hc' & _)]];
        congruence.
  - unfold generate_images. rewrite (bind_raises _ Hguard). simpl.
    split; [ eexists; reflexivity | exact Hs ].
  - unfold load_textual_inversion. rewrite (bind_raises _ Hguard). simpl.
    split; [ eexists; reflexivity | exact Hs ].
  - unfold unload_textual_inversion. rewrite (bind_raises _ Hguard). simpl.
    split; [ eexists; reflexivity | exact Hs ].
  - unfold unload_all_textual_inversion.
    rewrite (bind_raises _ Hguard). simpl.
    split; [ eexists; reflexivity | exact Hs ].
Qed.

(** X11: With [num_batches] zero or negative, each of the three tasks, on a
    coherent loaded instance, prepares nothing and generates nothing: it
    saves the empty list, if an output directory was given, and returns
    it. *)
Theorem nonpositive_batches_generate_nothing config (d : PyVal) w
  (p : Pipeline E) :
  coherent (self w) -> pipe (self w) = Some p ->
  num_batches config <= 0 ->
  _generate_images_text2img config d w
  = empty_run (pathify_strings E d) w /\
  _generate_images_img2img config d w
  = empty_run (pathify_strings E d) w /\
  _generate_images_inpainting config d w
  = empty_run (pathify_strings E d) w.
Proof.
  intros Hco Hp Hn.
  assert (Hz : Z.to_nat (num_batches config) = 0%nat) by lia.
  unfold _generate_images_text2img, _generate_images_img2img,
    _generate_images_inpainting, empty_run. cbv zeta.
  rewrite !(bind_value _ (load_model_hard_set_noop Hco Hp)), Hz.
  simpl. repeat split.
Qed.

(** X12: Of the methods, only [update_pipeline] can change the configuration
    or whether a pipeline is loaded: on a coherent instance every other
    method, returning or raising, leaves the configuration as it is and
    a pipeline loaded exactly if one was. *)
Theorem only_update_pipeline_reconfigures w (c : MethodCall E) :
  coherent (self w) ->
  (forall new, c <> Call_update_pipeline new) ->
  same_shape w (snd (perform c w)).
Proof.
  intros Hco Hnot.
  destruct c as [new | config d | hf fp tok | tokens |]; simpl.
  - destruct (Hnot new). reflexivity.
  - destruct (generate_images config d w) as [r w'] eqn:H. simpl.
    destruct (generate_images_frame Hco H) as [Hc Hp].
    split; [ exact Hc | ].
    destruct Hp as [-> | (t & sch & p & _ & _ & -> & ->)]; reflexivity.
  - destruct (load_textual_inversion hf fp tok w) as [r w'] eqn:H.
    apply (load_textual_inversion_same_shape H).
  - destruct (unload_textual_inversion tokens w) as [r w'] eqn:H.
    apply (unload_textual_inversion_same_shape H).
  - destruct (unload_all_textual_inversion w) as [r w'] eqn:H.
    apply (unload_all_textual_inversion_same_shape H).
Qed.

End EdgeFacts.

(** ** The text-to-image and image-to-image loops *)

Section PlainLoops.

Variable E : Externals.

Local Open Scope py_scope.

Implicit Types (config : StableDiffusionInputConfig E) (w : World E).

Variable args : option (Generator E) -> PipeArgsE E.

(** One turn that returned has read the generator of the configuration,
    called the loaded pipeline once, and appended what it returned. *)
Lemma plain_item_inv (images r : list Image) w w' :
  (c <- config_attr "generator" ;;
   p <- @pipe_callable E ;;
   log (EvGenerate (args (generator c))) ;;
   pipeline_images <- outside (pipe_call p (args (generator c))) ;;
   ret (images ++ pipeline_images)%list) w = (inr r, w') ->
  exists t : PlainTurn E,
    turn_of_loop args (self w) t /\
    r = (images ++ turn_images t)%list /\
    self w' = self w /\
    trace w' = (trace w ++ [EvGenerate (args (turn_generator t))])%list.
Proof.
  intros H.
  apply bind_returns in H as (c & w1 & Hc & H).
  apply config_attr_cases in Hc as [-> [[_ [=]] | (c' & Hc' & [= ->])]].
  apply bind_returns in H as (p & w2 & Hp & H).
  unfold pipe_callable, bind, get_self in Hp.
  destruct (pipe (self w)) as [p0 |] eqn:Hpipe; [ | discriminate Hp ].
  injection Hp as <- <-.
  apply bind_returns in H as ([] & w3 & Hlog & H). injection Hlog as <-.
  apply bind_returns in H as (outs & w4 & Hcall & H).
  unfold outside in Hcall. simpl in Hcall.
  destruct (pipe_call _ _ _) as [ro x'] eqn:Hg in Hcall.
  injection Hcall as -> <-. injection H as <- <-.
  exists (mkPlainTurn (generator c') outs). simpl.
  repeat split.
  - exists c'. split; [ exact Hc' | reflexivity ].
  - exists p0, (ext w), x'. split; [ exact Hpipe | exact Hg ].
Qed.

Variable item : list Image -> M E (list Image).

Hypothesis item_inv :
  forall (images r : list Image) w w',
    item images w = (inr r, w') ->
    exists t : PlainTurn E,
      turn_of_loop args (self w) t /\
      r = (images ++ turn_images t)%list /\
      self w' = self w /\
      trace w' = (trace w ++ [EvGenerate (args (turn_generator t))])%list.

Lemma plain_loop_inv (n : nat) (acc r : list Image) w w' :
  for_range n item acc w = (inr r, w') ->
  exists turns : list (PlainTurn E),
    List.length turns = n /\
    Forall (turn_of_loop args (self w)) turns /\
    r = (acc ++ List.concat (map (@turn_images E) turns))%list /\
    self w' = self w /\
    trace w' = (trace w ++ turn_calls args turns)%list.
Proof.
  revert acc w; induction n as [| n IH]; intros acc w H; simpl in H.
  - injection H as <- <-. exists []. simpl.
    repeat split; try constructor; rewrite app_nil_r; reflexivity.
  - apply bind_returns in H as (acc1 & w1 & Hitem & Hrest).
    apply item_inv in Hitem as (t & Ht & -> & Hs1 & Ht1).
    apply IH in Hrest as (turns & Hlen & Hall & -> & Hs & Htr).
    exists (t :: turns). simpl.
    split; [ congruence | ].
    split; [ constructor; [ assumption | rewrite <- Hs1; assumption ] | ].
    split; [ rewrite <- app_assoc; reflexivity | ].
    split; [ congruence | ].
    rewrite Htr, Ht1. unfold turn_calls. simpl.
    rewrite <- app_assoc. reflexivity.
Qed.

Lemma plain_task_inv (n : nat) (d : PyVal) w (images : list Image) w' :
  (@_load_model_hard_set E ;;
   images <- for_range n item [] ;;
   save_if_requested images d ;;
   ret images) w = (inr images, w') ->
  exists (w0 : World E) (turns : list (PlainTurn E)),
    _load_model_hard_set w = (inr tt, w0) /\
    List.length turns = n /\
    Forall (turn_of_loop args (self w0)) turns /\
    images = List.concat (map (@turn_images E) turns) /\
    self w' = self w0 /\
    trace w' = (trace w0 ++ turn_calls args turns
                ++ save_calls E images d)%list.
Proof.
  intros H.
  apply bind_returns in H as ([] & w0 & Hload & H).
  apply bind_returns in H as (imgs & w1 & Hloop & H).
  apply bind_returns in H as ([] & w2 & Hsave & H).
  injection H as <- <-.
  apply plain_loop_inv in Hloop as (turns & Hlen & Hall & Himgs & Hs & Ht).
  apply save_if_requested_inv in Hsave as [Hs2 Ht2].
  exists w0, turns. simpl in Himgs.
  repeat split; try assumption.
  - congruence.
  - rewrite Ht2, Ht, <- app_assoc. reflexivity.
Qed.

End PlainLoops.

Section PlainTasks.

Variable E : Externals.

Implicit Types (config : StableDiffusionInputConfig E) (w : World E).



End PlainTasks.

(** ** The order of the calls of [generate_images] *)

Ltac grows :=
  match goal with
  | |- @respects ?E _ _ _ =>
      frame_with (@logs_refl E (fun _ => True))
        (@logs_trans E (fun _ => True))
        ltac:(first
                [ apply log_logs; exact I
                | apply outside_logs
                | apply put_self_logs
                | match goal with
                  | |- respects _ (if ?b then _ else _) => destruct b
                  | |- respects _ (match ?x with _ => _ end) => destruct x
                  end ])
  end.

Section TraceFacts.

Variable E : Externals.

Local Open Scope py_scope.

Implicit Types (config : StableDiffusionInputConfig E) (w : World E).

Lemma load_model_hard_set_grows :
  respects (logs (fun _ : Event E => True)) (@_load_model_hard_set E).
Proof.
  unfold _load_model_hard_set, _load_pipeline, load_from, set_pipe,
    set_model_config.
  grows.
Qed.

Lemma tasks_grow config (d : PyVal) :
  respects (logs (fun _ : Event E => True))
    (_generate_images_text2img config d) /\
  respects (logs (fun _ : Event E => True))
    (_generate_images_img2img config d) /\
  respects (logs (fun _ : Event E => True))
    (_generate_images_inpainting config d).
Proof.
  repeat split;
    unfold _generate_images_text2img, _generate_images_img2img,
      _generate_images_inpainting, save_if_requested, text2img_item,
      img2img_item, inpainting_item, postprocess_one;
    cbv zeta;
    (apply (respects_bind (@logs_trans E (fun _ => True)));
     [ apply load_model_hard_set_grows | intros _ ]);
    grows.
Qed.

(** A task that returns has saved, as its last call, the images it
    returns, when its output directory counts as given. *)
Lemma tasks_save_last config (d : PyVal) w (images : list Image) w' :
  _generate_images_text2img config d w = (inr images, w') \/
  _generate_images_img2img config d w = (inr images, w') \/
  _generate_images_inpainting config d w = (inr images, w') ->
  exists t,
    trace w'
    = (trace w ++ t ++ save_calls E images (pathify_strings E d))%list.
Proof.
  intros [H | [H | H]];
    [ unfold _generate_images_text2img in H
    | unfold _generate_images_img2img in H
    | unfold _generate_images_inpainting in H ];
    cbv zeta in H;
    apply bind_returns in H as ([] & w0 & Hload & H);
    apply bind_returns in H as (imgs & w1 & Hloop & H);
    apply bind_returns in H as ([] & w2 & Hsave & H);
    injection H as <- <-;
    apply load_model_hard_set_grows in Hload as (t0 & Ht0 & _);
    apply save_if_requested_inv in Hsave as [_ Hsave];
    match type of Hloop with
    | ?m w0 = _ =>
        assert (Hg : respects (logs (fun _ : Event E => True)) m)
          by (unfold text2img_item, img2img_item, inpainting_item,
                postprocess_one; cbv zeta; grows);
        apply Hg in Hloop as (t1 & Ht1 & _)
    end;
    exists (t0 ++ t1)%list;
    rewrite Hsave, Ht1, Ht0, <- !app_assoc; reflexivity.
Qed.

(** X15: On a loaded instance, called with an output directory,
    [generate_images] creates the directory before anything else,
    whatever happens afterwards; and when it returns, its last call has
    been to save exactly the images it returns into that directory. *)
Theorem generate_images_makes_directory_first_and_saves_last config
  (d : PyVal) (dir : Path) w (p : Pipeline E) (r : PyExn + list Image) w' :
  pipe (self w) = Some p ->
  pathify_strings E d = VPath dir ->
  pathify_strings E (VPath dir) = VPath dir ->
  generate_images config d w = (r, w') ->
  exists mid,
    trace w' = (trace w ++ EvMkdir E dir :: mid)%list /\
    forall images,
      r = inr images ->
      exists mid',
        mid = (mid' ++ [EvSaveImages E images (VPath dir)])%list.
Proof.
  intros Hp Hd Hidem H. unfold generate_images in H. cbv zeta in H.
  rewrite Hd in H.
  rewrite (bind_value _ (check_model_ready_loaded Hp)) in H.
  unfold mkdir_output_dir in H.
  apply bind_cases in H as [(e & H & ->) | ([] & w2 & Hmk & H)].
  { exists []. split; [ | discriminate ].
    unfold bind, log, outside in H. simpl in H.
    destruct (path_mkdir dir (ext w)) as [ro x]. injection H as _ <-.
    reflexivity. }
  assert (Ht2 : trace w2 = (trace w ++ [EvMkdir E dir])%list).
  { unfold bind, log, outside in Hmk. simpl in Hmk.
    destruct (path_mkdir dir (ext w)) as [ro x]. injection Hmk as _ <-.
    reflexivity. }
  apply bind_cases in H as [(e & H & ->) | ([] & w3 & Hsch & H)].
  { assert (Hg : respects (logs (fun _ : Event E => True))
                   (match scheduler_type config with
                    | Some t =>
                        log (EvGetScheduler E) ;;
                        sch <- call (get_scheduler t) ;;
                        p0 <- pipe_attr "scheduler" ;;
                        set_pipe (Some (set_scheduler sch p0))
                    | None => ret tt
                    end)) by (unfold set_pipe; grows).
    apply Hg in H as (t & Ht & _). exists t.
    split; [ | discriminate ].
    rewrite Ht, Ht2, <- app_assoc. reflexivity. }
  assert (Ht3 : exists t3, trace w3 = (trace w2 ++ t3)%list).
  { assert (Hg : respects (logs (fun _ : Event E => True))
                   (match scheduler_type config with
                    | Some t =>
                        log (EvGetScheduler E) ;;
                        sch <- call (get_scheduler t) ;;
                        p0 <- pipe_attr "scheduler" ;;
                        set_pipe (Some (set_scheduler sch p0))
                    | None => ret tt
                    end)) by (unfold set_pipe; grows).
    apply Hg in Hsch as (t & Ht & _). exists t. exact Ht. }
  destruct Ht3 as [t3 Ht3].
  apply bind_cases in H as [(e & H & ->) | (c & w4 & Hc & H)].
  { apply config_attr_cases in H as [-> _]. exists t3.
    split; [ | discriminate ].
    rewrite Ht3, Ht2, <- app_assoc. reflexivity. }
  apply config_attr_cases in Hc as [-> _].
  destruct (tasks_grow config (VPath dir)) as (G1 & G2 & G3).
  assert (Hany : forall t4, trace w' = (trace w3 ++ t4)%list ->
                 trace w' = (trace w ++ EvMkdir E dir :: t3 ++ t4)%list).
  { intros t4 Ht4. rewrite Ht4, Ht3, Ht2, <- !app_assoc. reflexivity. }
  assert (Hlast : forall images t,
             trace w'
             = (trace w3 ++ t
                ++ save_calls E images (pathify_strings E (VPath dir)))%list ->
             exists mid,
               trace w' = (trace w ++ EvMkdir E dir :: mid)%list /\
               forall images0,
                 inr images = inr images0 :> PyExn + list Image ->
                 exists mid',
                   mid = (mid' ++ [EvSaveImages E images0 (VPath dir)])%list).
  { intros images t Ht. rewrite Hidem in Ht. unfold save_calls in Ht.
    simpl in Ht.
    exists (t3 ++ t ++ [EvSaveImages E images (VPath dir)])%list.
    split; [ apply Hany; exact Ht | ].
    intros images0 [= <-]. exists (t3 ++ t)%list.
    rewrite <- app_assoc. reflexivity. }
  destruct (task_type c).
  - destruct r as [e | images].
    + apply G1 in H as (t & Ht & _). eexists.
      split; [ apply Hany; exact Ht | discriminate ].
    + destruct (@tasks_save_last config (VPath dir) w3 images w'
                  (or_introl H)) as (t & Ht).
      apply (Hlast images t Ht).
  - destruct r as [e | images].
    + apply G2 in H as (t & Ht & _). eexists.
      split; [ apply Hany; exact Ht | discriminate ].
    + destruct (@tasks_save_last config (VPath dir) w3 images w'
                  (or_intror (or_introl H))) as (t & Ht).
      apply (Hlast images t Ht).
  - destruct r as [e | images].
    + apply G3 in H as (t & Ht & _). eexists.
      split; [ apply Hany; exact Ht | discriminate ].
    + destruct (@tasks_save_last config (VPath dir) w3 images w'
                  (or_intror (or_intror H))) as (t & Ht).
      apply (Hlast images t Ht).
  - injection H as <- <-. exists t3.
    split; [ | discriminate ].
    rewrite Ht3, Ht2, <- app_assoc. reflexivity.
Qed.

End TraceFacts.

(** ** The further properties at work on the concrete setting *)

Module BackstageFacts.

Import Scenario Backstage.

Local Open Scope py_scope.

Lemma valid_prompt_stays_valid_in_context_witness :
  Florence2.validate_prompt Florence2.ascii_digit
    (prompt "see " ++ prompt "<loc_12>" ++ prompt " here")%list
    Florence2.REGION_TO_CATEGORY = true.
Proof.
  apply (@Florence2Facts.valid_prompt_stays_valid_in_context
           Florence2.ascii_digit (prompt "<loc_12>") (prompt "see ")
           (prompt " here") Florence2.REGION_TO_CATEGORY).
  vm_compute. reflexivity.
Defined.

Lemma short_prompt_is_invalid_for_region_tasks_witness :
  Florence2.validate_prompt Florence2.ascii_digit (prompt "<loc_>")
    Florence2.REGION_TO_SEGMENTATION = false.
Proof.
  apply (@Florence2Facts.short_prompt_is_invalid_for_region_tasks
           Florence2.ascii_digit (prompt "<loc_>")
           Florence2.REGION_TO_SEGMENTATION).
  - vm_compute. lia.
  - simpl. tauto.
Defined.

Lemma failed_load_keeps_the_instance_witness :
  self (snd (update_pipeline
               (model_for (E:=offline) "other-model" INPAINTING 7)
               (loaded_for (E:=offline) "inpainting-model"
                  "inpainting-model" INPAINTING 7 0%nat)))
  = self (loaded_for (E:=offline) "inpainting-model" "inpainting-model"
            INPAINTING 7 0%nat).
Proof.
  apply (@failed_load_keeps_the_instance offline None None None
           (model_for (E:=offline) "other-model" INPAINTING 7)
           (loaded_for (E:=offline) "inpainting-model" "inpainting-model"
              INPAINTING 7 0%nat)
           (ExternalError "model not found")).
  right. vm_compute. reflexivity.
Defined.

Lemma successful_load_records_the_source_witness :
  exists (c c' : StableDiffusionModelConfig E_steady)
         (p' : Pipeline E_steady),
    model_config (self (unloaded (E:=E_steady) 7 0%nat)) = Some c /\
    pipe (self (snd (_load_pipeline (Some "inpainting-model") None None
                       (unloaded (E:=E_steady) 7 0%nat)))) = Some p' /\
    model_config
      (self (snd (_load_pipeline (Some "inpainting-model") None None
                    (unloaded (E:=E_steady) 7 0%nat)))) = Some c' /\
    hf_model_id c' = Some "inpainting-model" /\ model_path c' = None /\
    one_source c' = true /\
    task_type c' = task_type c /\ check_nsfw c' = check_nsfw c /\
    seed c' = seed c /\ generator c' = generator c.
Proof.
  apply (@successful_load_records_the_source E_steady
           (Some "inpainting-model") None None
           (unloaded (E:=E_steady) 7 0%nat)).
  - exact I.
  - vm_compute. reflexivity.
Defined.

Lemma loaded_is_coherent :
  coherent (self (loaded (E:=E_steady) "inpainting-model" 7 0%nat)).
Proof.
  unfold coherent. simpl. eexists. split; reflexivity.
Defined.

Lemma generate_images_only_sets_the_scheduler_witness :
  model_config
    (self (snd (generate_images (job (E:=E_steady) "a cat" 1) out_dir
                  (loaded (E:=E_steady) "inpainting-model" 7 0%nat))))
  = model_config (self (loaded (E:=E_steady) "inpainting-model" 7 0%nat)) /\
  (pipe
     (self (snd (generate_images (job (E:=E_steady) "a cat" 1) out_dir
                   (loaded (E:=E_steady) "inpainting-model" 7 0%nat))))
   = pipe (self (loaded (E:=E_steady) "inpainting-model" 7 0%nat)) \/
   exists t sch p,
     scheduler_type (job (E:=E_steady) "a cat" 1) = Some t /\
     get_scheduler (e:=E_steady) t = inr sch /\
     pipe (self (loaded (E:=E_steady) "inpainting-model" 7 0%nat))
     = Some p /\
     pipe
       (self (snd (generate_images (job (E:=E_steady) "a cat" 1) out_dir
                     (loaded (E:=E_steady) "inpainting-model" 7 0%nat))))
     = Some (set_scheduler (e:=E_steady) sch p)).
Proof.
  apply (@generate_images_only_sets_the_scheduler E_steady
           (job (E:=E_steady) "a cat" 1) out_dir
           (loaded (E:=E_steady) "inpainting-model" 7 0%nat)
           (fst (generate_images (job (E:=E_steady) "a cat" 1) out_dir
                   (loaded (E:=E_steady) "inpainting-model" 7 0%nat)))).
  - exact loaded_is_coherent.
  - vm_compute. reflexivity.
Defined.

Lemma reachable_instance_is_coherent_witness :
  coherent
    (self
       (snd (perform (Call_generate_images (job (E:=E_steady) "a cat" 1)
                        out_dir)
               (snd (__init__
                       (Some (model_for (E:=E_steady) "inpainting-model"
                                INPAINTING 7))
                       (blank (E:=E_steady) 0%nat)))))).
Proof.
  apply (@reachable_instance_is_coherent E_steady).
  apply reach_call.
  apply (@reach_init E_steady
           (Some (model_for (E:=E_steady) "inpainting-model" INPAINTING 7))
           0%nat).
  vm_compute. reflexivity.
Defined.

Lemma unconfigured_instance_stays_unusable_witness :
  (exists e,
      fst (perform
             (Call_update_pipeline
                (model_for (E:=E_steady) "inpainting-model" INPAINTING 7))
             (blank (E:=E_steady) 0%nat)) = inl e) /\
  self (snd (perform
               (Call_update_pipeline
                  (model_for (E:=E_steady) "inpainting-model" INPAINTING 7))
               (blank (E:=E_steady) 0%nat)))
  = mkSelf None None.
Proof.
  apply (@unconfigured_instance_stays_unusable E_steady
           (blank (E:=E_steady) 0%nat)).
  reflexivity.
Defined.

Lemma nonpositive_batches_generate_nothing_witness :
  _generate_images_text2img (job (E:=E_steady) "a cat" 0) out_dir
    (loaded (E:=E_steady) "inpainting-model" 7 0%nat)
  = empty_run (pathify_strings E_steady out_dir)
      (loaded (E:=E_steady) "inpainting-model" 7 0%nat) /\
  _generate_images_img2img (job (E:=E_steady) "a cat" 0) out_dir
    (loaded (E:=E_steady) "inpainting-model" 7 0%nat)
  = empty_run (pathify_strings E_steady out_dir)
      (loaded (E:=E_steady) "inpainting-model" 7 0%nat) /\
  _generate_images_inpainting (job (E:=E_steady) "a cat" 0) out_dir
    (loaded (E:=E_steady) "inpainting-model" 7 0%nat)
  = empty_run (pathify_strings E_steady out_dir)
      (loaded (E:=E_steady) "inpainting-model" 7 0%nat).
Proof.
  apply (@nonpositive_batches_generate_nothing E_steady
           (job (E:=E_steady) "a cat" 0) out_dir
           (loaded (E:=E_steady) "inpainting-model" 7 0%nat)
           "inpainting-model").
  - exact loaded_is_coherent.
  - reflexivity.
  - simpl. lia.
Defined.

Lemma only_update_pipeline_reconfigures_witness :
  same_shape (loaded (E:=E_steady) "inpainting-model" 7 0%nat)
    (snd (perform (Call_unload_all_textual_inversion E_steady)
            (loaded (E:=E_steady) "inpainting-model" 7 0%nat))).
Proof.
  apply (@only_update_pipeline_reconfigures E_steady
           (loaded (E:=E_steady) "inpainting-model" 7 0%nat)
           (Call_unload_all_textual_inversion E_steady)).
  - exact loaded_is_coherent.
  - intros new H. discriminate H.
Defined.



Lemma generate_images_makes_directory_first_and_saves_last_witness :
  exists mid,
    trace (snd (generate_images (job (E:=E_steady) "a cat" 1) out_dir
                  (loaded (E:=E_steady) "inpainting-model" 7 0%nat)))
    = (trace (loaded (E:=E_steady) "inpainting-model" 7 0%nat)
       ++ EvMkdir E_steady ["out"] :: mid)%list /\
    forall images,
      fst (generate_images (job (E:=E_steady) "a cat" 1) out_dir
             (loaded (E:=E_steady) "inpainting-model" 7 0%nat))
      = inr images ->
      exists mid',
        mid = (mid' ++ [EvSaveImages E_steady images (VPath ["out"])])%list.
Proof.
  apply (@generate_images_makes_directory_first_and_saves_last E_steady
           (job (E:=E_steady) "a cat" 1) out_dir ["out"]
           (loaded (E:=E_steady) "inpainting-model" 7 0%nat)
           "inpainting-model").
  - reflexivity.
  - reflexivity.
  - reflexivity.
  - vm_compute. reflexivity.
Defined.

End BackstageFacts.
